(** * faunadb-js: query expressions, values and the page helper

    A shallow embedding of the parts of the driver that build query
    expressions ([query.ts]: [arity], [wrap], [wrapValues], the
    constructors the page helper calls), print them ([Expr.toString]),
    construct and compare values ([values.ts]: [Ref], [FaunaTime]) and
    page through a set ([PageHelper.ts]); further, of the optional
    parameters of the read functions, of the printing of a [Ref], of the
    errors of the server ([errors.ts]), of the last transaction time a
    client keeps ([Client.ts]) and of [removeUndefinedValues].

    JavaScript values are an inductive type, exceptions are a [result],
    and the objects the page helper mutates live in an explicit store. *)

From Stdlib Require Import String Ascii List ZArith Lia Bool DecimalString.
From stdpp Require Import gmap strings.
Import ListNotations.

Set Warnings "-register-all".

Local Open Scope string_scope.
Local Open Scope list_scope.

(** ** Errors ([errors.ts]) and the result of a call that may throw *)

Module errors.

Definition nat_to_string (n : nat) : string :=
  NilZero.string_of_uint (Nat.to_uint n).

(** [messageForArity] of the [InvalidArity] constructor; [None] is the
    [null] bound. *)
Definition messageForArity (min max : option nat) : string :=
  match max, min with
  | None, Some lo => "at least " +:+ nat_to_string lo
  | None, None => "at least null"
  | Some hi, None => "up to " +:+ nat_to_string hi
  | Some hi, Some lo =>
      if Nat.eqb lo hi then nat_to_string lo
      else "from " +:+ nat_to_string lo +:+ " to " +:+ nat_to_string hi
  end.

(** The exceptions the modelled code raises.  [InvalidValue] and
    [InvalidArity] are the driver's own classes; [TypeError] is the
    language's (a property read on [undefined], an assignment to a
    read-only property), and its message is the engine's. *)
Inductive Error : Type :=
| InvalidValue (message : string)
| InvalidArity (min max : option nat) (actual : nat)
| TypeError (message : string).

Definition name (e : Error) : string :=
  match e with
  | InvalidValue _ => "InvalidValue"
  | InvalidArity _ _ _ => "InvalidArity"
  | TypeError _ => "TypeError"
  end.

Definition message (e : Error) : string :=
  match e with
  | InvalidValue m => m
  | InvalidArity min max actual =>
      "Function requires " +:+ messageForArity min max +:+
      " arguments but " +:+ nat_to_string actual +:+ " were given."
  | TypeError m => m
  end.

End errors.

Inductive result (A : Type) : Type :=
| Ok (a : A)
| Throw (e : errors.Error).
Arguments Ok {A} a.
Arguments Throw {A} e.

(** Sequencing of calls that may throw.  The notation unfolds to a plain
    [match], so that it can be used inside structural fixpoints. *)
Notation "'do' x <- e ; k" :=
  (match e with Ok x => k | Throw err => Throw err end)
  (at level 10, x name, e at level 100, k at level 200, only parsing).

Definition is_Ok {A} (r : result A) : bool :=
  match r with Ok _ => true | Throw _ => false end.

(** ** Argument counts ([query.ts], [arity]) *)

Module arity.

(** [arity(min, max, args)]: [len] is [args.length], [None] a [null]
    bound.  Returns normally or throws [InvalidArity(min, max, len)]. *)
Definition arity (min max : option nat) (len : nat) : result unit :=
  if (match min with Some lo => Nat.ltb len lo | None => false end)
     || (match max with Some hi => Nat.ltb hi len | None => false end)
  then Throw (errors.InvalidArity min max len)
  else Ok tt.

Definition exact (n len : nat) : result unit := arity (Some n) (Some n) len.
Definition max (n len : nat) : result unit := arity None (Some n) len.
Definition min (n len : nat) : result unit := arity (Some n) None len.
Definition between (lo hi len : nat) : result unit :=
  arity (Some lo) (Some hi) len.

(** The argument count is within the declared bounds. *)
Definition within (min max : option nat) (len : nat) : Prop :=
  (forall lo, min = Some lo -> lo <= len) /\
  (forall hi, max = Some hi -> len <= hi).

End arity.

(** ** Values ([values.ts]) *)

Module values.

(** [Ref]: [this.value = { id, class: clazz, database }]; an absent
    [class] or [database] is [undefined], here [None]. *)
Inductive Ref : Type :=
  mkRef { id : string; class : option Ref; database : option Ref }.

(** The [id] argument of [new Ref(id, clazz, database)], declared a
    string; a caller may leave it out or pass [null]. *)
Inductive IdArg : Type :=
| IdUndefined
| IdNull
| IdString (s : string).

(** [!id]. *)
Definition falsy_id (a : IdArg) : bool :=
  match a with
  | IdUndefined | IdNull => true
  | IdString s => String.eqb s ""
  end.

(** [new Ref(id, clazz, database)]. *)
Definition new_Ref (a : IdArg) (clazz database : option Ref) : result Ref :=
  if falsy_id a then
    Throw (errors.InvalidValue "id cannot be null or undefined")
  else
    match a with
    | IdString s => Ok (mkRef s clazz database)
    | _ => Throw (errors.InvalidValue "id cannot be null or undefined")
    end.

(** [Ref.equals].  [other] is [None] when it is [undefined] (not an
    instance of [Ref]).  [&&] and [||] short-circuit as in the source;
    [this.class.equals] on an [undefined] [this.class] is the property
    read that raises [TypeError]. *)
Fixpoint equals (this : Ref) (other : option Ref) {struct this}
  : result bool :=
  match other with
  | None => Ok false
  | Some o =>
      if negb (String.eqb (id this) (id o)) then Ok false
      else
        do c <-
          (if match class this, class o with
              | None, None => true
              | _, _ => false
              end
           then Ok true
           else match class this with
                | Some tc => equals tc (class o)
                | None =>
                    Throw (errors.TypeError
                             "Cannot read property 'equals' of undefined")
                end);
        if negb c then Ok false
        else
          if match database this, database o with
             | None, None => true
             | _, _ => false
             end
          then Ok true
          else match database this with
               | Some td => equals td (database o)
               | None =>
                   Throw (errors.TypeError
                            "Cannot read property 'equals' of undefined")
               end
  end.

(** The specification of [equals]: structural equality, recursing
    through [class] and [database], decided without raising. *)
Fixpoint same (a b : Ref) {struct a} : bool :=
  String.eqb (id a) (id b)
  && match class a, class b with
     | None, None => true
     | Some ca, Some cb => same ca cb
     | _, _ => false
     end
  && match database a, database b with
     | None, None => true
     | Some da, Some db => same da db
     | _, _ => false
     end.

(** A [Ref] all of whose parts were built by the constructor. *)
Inductive constructed : Ref -> Prop :=
| constructed_new a c d r :
    new_Ref a c d = Ok r ->
    (forall c', c = Some c' -> constructed c') ->
    (forall d', d = Some d' -> constructed d') ->
    constructed r.

End values.

(** ** JavaScript values

    The host values [wrap] and [Expr.toString] take apart.  Numbers are
    integers (printed in decimal), strings are strings of 8-bit
    characters.  A callable is represented by what the driver observes
    of it: the parameter names [fn-annotate] reads off it, and the value
    it returns when [_lambdaFunc] applies it to the [Var] nodes of these
    names; a callable that throws or does not return is not
    represented.  A plain object lists its own enumerable properties in
    the order of [Object.keys]; it is well formed when no key occurs
    twice.  Its properties are data properties with string keys, none of
    them the key __proto__, and an object that has keys which are array
    indices lists them first, in ascending order, as [Object.keys] does.
    [JExpr raw] is [new Expr(raw)]; the last six constructors are the
    [Value] subclasses of [Expr]. *)

Inductive JsValue : Type :=
| JUndefined
| JNull
| JBool (b : bool)
| JNum (n : Z)
| JStr (s : string)
| JSymbol (description : string)
| JFunction (params : list string) (returns : JsValue)
| JArray (items : list JsValue)
| JUint8Array (bytes : list Byte.byte)
| JArrayBuffer (bytes : list Byte.byte)
| JObject (props : list (string * JsValue))
| JExpr (raw : JsValue)
| JRef (r : values.Ref)
| JSetRef (value : JsValue)
| JTime (value : string)
| JDate (value : string)
| JBytes (value : list Byte.byte)
| JQuery (value : JsValue).

Definition Props : Type := list (string * JsValue).

(** Induction on values, through the arrays and objects they hold. *)

Section JsValue_induction.
Variable P : JsValue -> Prop.
Hypothesis P_leaf : forall x,
  match x with
  | JFunction _ _ | JArray _ | JObject _ | JExpr _ | JSetRef _ | JQuery _ =>
      True
  | _ => P x
  end.
Hypothesis P_function : forall vars returns,
  P returns -> P (JFunction vars returns).
Hypothesis P_array : forall items, Forall P items -> P (JArray items).
Hypothesis P_object : forall props,
  Forall (fun kv => P (snd kv)) props -> P (JObject props).
Hypothesis P_expr : forall r, P r -> P (JExpr r).
Hypothesis P_setref : forall v, P v -> P (JSetRef v).
Hypothesis P_query : forall v, P v -> P (JQuery v).

Fixpoint JsValue_nested_ind (x : JsValue) : P x :=
  match x with
  | JFunction vars returns =>
      P_function vars returns (JsValue_nested_ind returns)
  | JArray items =>
      P_array items
        ((fix all (l : list JsValue) : Forall P l :=
            match l with
            | [] => List.Forall_nil P
            | v :: t =>
                @List.Forall_cons _ P v t (JsValue_nested_ind v) (all t)
            end) items)
  | JObject props =>
      P_object props
        ((fix all (l : Props) : Forall (fun kv => P (snd kv)) l :=
            match l with
            | [] => List.Forall_nil _
            | kv :: t =>
                @List.Forall_cons _ (fun kv => P (snd kv)) kv t
                                  (JsValue_nested_ind (snd kv)) (all t)
            end) props)
  | JExpr r => P_expr r (JsValue_nested_ind r)
  | JSetRef v => P_setref v (JsValue_nested_ind v)
  | JQuery v => P_query v (JsValue_nested_ind v)
  | JUndefined => P_leaf JUndefined
  | JNull => P_leaf JNull
  | JBool b => P_leaf (JBool b)
  | JNum n => P_leaf (JNum n)
  | JStr s => P_leaf (JStr s)
  | JSymbol d => P_leaf (JSymbol d)
  | JUint8Array bs => P_leaf (JUint8Array bs)
  | JArrayBuffer bs => P_leaf (JArrayBuffer bs)
  | JRef r => P_leaf (JRef r)
  | JTime s => P_leaf (JTime s)
  | JDate s => P_leaf (JDate s)
  | JBytes bs => P_leaf (JBytes bs)
  end.
End JsValue_induction.

Module object.

(** [k in o] for an own property. *)
Fixpoint has (o : Props) (k : string) : bool :=
  match o with
  | [] => false
  | (k', _) :: t => String.eqb k k' || has t k
  end.

(** [o[k]]: [undefined] when the property is absent.  The own
    properties are read: this is the read of the code for a key that is
    own, or that names no property the object inherits. *)
Fixpoint get (o : Props) (k : string) : JsValue :=
  match o with
  | [] => JUndefined
  | (k', v) :: t => if String.eqb k k' then v else get t k
  end.

(** [o[k] = v]: an existing property keeps its place, a new one goes
    last.  This is the assignment of the code for a key other than
    __proto__ and, as to the place, other than an array index. *)
Fixpoint set (o : Props) (k : string) (v : JsValue) : Props :=
  match o with
  | [] => [(k, v)]
  | (k', v') :: t =>
      if String.eqb k k' then (k', v) :: t else (k', v') :: set t k v
  end.

(** [delete o[k]]. *)
Fixpoint delete (o : Props) (k : string) : Props :=
  match o with
  | [] => []
  | (k', v') :: t =>
      if String.eqb k k' then delete t k else (k', v') :: delete t k
  end.

(** [Object.assign(target, source)] for an object [source]. *)
Definition assign (target source : Props) : Props :=
  fold_left (fun rv kv => set rv (fst kv) (snd kv)) source target.

Definition keys (o : Props) : list string := map fst o.

(** No key occurs twice. *)
Definition wf (o : Props) : Prop := NoDup (keys o).

End object.

(** The decimal text of an integer: what the code prints of a number
    that holds a safe integer. *)
Definition Z_to_string (z : Z) : string :=
  NilZero.string_of_int (Z.to_int z).

(** The elements of an array-like value under their index keys. *)
Definition indexed {A} (f : A -> JsValue) (l : list A) : Props :=
  map (fun iv => (errors.nat_to_string (fst iv), f (snd iv)))
      (combine (seq 0 (length l)) l).

Definition chars (s : string) : list ascii := list_ascii_of_string s.

Definition ref_value (r : values.Ref) : JsValue :=
  JObject [("id", JStr (values.id r));
           ("class", match values.class r with
                     | Some c => JRef c
                     | None => JUndefined
                     end);
           ("database", match values.database r with
                        | Some d => JRef d
                        | None => JUndefined
                        end)].

(** [x instanceof Expr]. *)
Definition instanceof_Expr (x : JsValue) : bool :=
  match x with
  | JExpr _ | JRef _ | JSetRef _ | JTime _ | JDate _ | JBytes _ | JQuery _ =>
      true
  | _ => false
  end.

(** [x.raw] of an instance of [Expr]: what its constructor handed to
    [super]. *)
Definition raw (x : JsValue) : JsValue :=
  match x with
  | JExpr r => r
  | JRef _ => JObject []
  | JSetRef v => v
  | JTime s => JStr s
  | JDate s => JStr s
  | JBytes bs => JUint8Array bs
  | JQuery v => v
  | _ => JUndefined
  end.

(** The own enumerable properties of a value, in the order of
    [Object.keys]; [Object.keys] throws on [null] and [undefined]. *)
Definition own_props (x : JsValue) : result Props :=
  match x with
  | JUndefined | JNull =>
      Throw (errors.TypeError "Cannot convert undefined or null to object")
  | JBool _ | JNum _ | JSymbol _ | JFunction _ _ | JArrayBuffer _ => Ok []
  | JStr s => Ok (indexed (fun c => JStr (String c "")) (chars s))
  | JArray items => Ok (indexed (fun v => v) items)
  | JUint8Array bs =>
      Ok (indexed (fun b => JNum (Z.of_N (Byte.to_N b))) bs)
  | JObject props => Ok props
  | JExpr r => Ok [("raw", r)]
  | JRef r => Ok [("raw", JObject []); ("value", ref_value r)]
  | JSetRef v => Ok [("raw", v); ("value", v)]
  | JTime s | JDate s => Ok [("raw", JStr s); ("value", JStr s)]
  | JBytes bs => Ok [("raw", JUint8Array bs); ("value", JUint8Array bs)]
  | JQuery v => Ok [("raw", v); ("value", v)]
  end.

(** [v || {}] and the like test this. *)
Definition truthy (x : JsValue) : bool :=
  match x with
  | JUndefined | JNull => false
  | JBool b => b
  | JNum n => negb (Z.eqb n 0)
  | JStr s => negb (String.eqb s "")
  | _ => true
  end.

(** ** [FaunaTime] ([values.ts]) *)

Module FaunaTime.

(** [value.charAt(i)] for an integer [i]: the empty string out of
    range. *)
Definition charAt (s : string) (i : Z) : string :=
  if (i <? 0)%Z then ""
  else match String.get (Z.to_nat i) s with
       | Some c => String c ""
       | None => ""
       end.

(** The argument of [new FaunaTime(value)]: a [Date], represented by
    what its [toISOString()] returns, or a string. *)
Inductive TimeArg : Type :=
| OfDate (iso : string)
| OfString (s : string).

(** [new FaunaTime(value)]; the instance is [JTime this.value]. *)
Definition new (a : TimeArg) : result JsValue :=
  match a with
  | OfDate iso => Ok (JTime iso)
  | OfString value =>
      if negb (String.eqb
                 (charAt value (Z.of_nat (String.length value) - 1)) "Z")
      then Throw (errors.InvalidValue
                    ("Only allowed timezone is 'Z', got: " +:+ value))
      else Ok (JTime value)
  end.

(** [toJSON()] of an instance: [{ '@ts': this.value }]. *)
Definition toJSON (t : JsValue) : JsValue :=
  match t with
  | JTime value => JObject [("@ts", JStr value)]
  | _ => JUndefined
  end.

(** The string ends with the character [Z]. *)
Definition ends_with_Z (s : string) : Prop := exists p, s = p +:+ "Z".

End FaunaTime.

(** ** String primitives the code relies on *)

Module str.

Definition drop (n : nat) (s : string) : string :=
  String.substring n (String.length s - n) s.

(** [.] of a regular expression matches any character but a line
    terminator. *)
Definition line_terminator (c : ascii) : bool :=
  Ascii.eqb c "010"%char || Ascii.eqb c "013"%char.

Fixpoint run (s : string) : string :=
  match s with
  | EmptyString => EmptyString
  | String c t => if line_terminator c then EmptyString else String c (run t)
  end.

(** Index of the last closing parenthesis. *)
Fixpoint last_paren (s : string) : option nat :=
  match s with
  | EmptyString => None
  | String c t =>
      match last_paren t with
      | Some j => Some (S j)
      | None => if Ascii.eqb c ")"%char then Some 0 else None
      end
  end.

(** A match, at the start of [s], of the pattern of [wrap]: the text
    Symbol, an opening parenthesis, a group of any characters, a closing
    parenthesis.  Returns the group and what follows the match.  The
    group is greedy: it runs to the last closing parenthesis before the
    next line terminator. *)
Definition match_Symbol (s : string) : option (string * string) :=
  if String.prefix "Symbol(" s then
    let rest := drop 7 s in
    match last_paren (run rest) with
    | Some j => Some (String.substring 0 j rest, drop (S j) rest)
    | None => None
    end
  else None.

(** [s.replace(pattern, (str, symbol) => symbol)]: the first match,
    from the left, is replaced by its group. *)
Fixpoint replace_Symbol (s : string) : string :=
  match match_Symbol s with
  | Some (symbol, after) => symbol +:+ after
  | None =>
      match s with
      | EmptyString => EmptyString
      | String c t => String c (replace_Symbol t)
      end
  end.

(** [toUpperCase] on one character; only the letters a-z change. *)
Definition upper (c : ascii) : ascii :=
  let n := nat_of_ascii c in
  if Nat.leb 97 n && Nat.leb n 122 then ascii_of_nat (n - 32) else c.

(** [str.charAt(0).toUpperCase() + str.slice(1)]. *)
Definition capitalize (s : string) : string :=
  match s with
  | EmptyString => EmptyString
  | String c t => String (upper c) t
  end.

(** [s.split('_')]. *)
Fixpoint split_underscore (s : string) : list string :=
  match s with
  | EmptyString => [EmptyString]
  | String c t =>
      if Ascii.eqb c "_"%char then EmptyString :: split_underscore t
      else match split_underscore t with
           | h :: r => String c h :: r
           | [] => [String c EmptyString]
           end
  end.

(** [l.join(sep)] for a list of strings. *)
Definition join (sep : string) (l : list string) : string :=
  String.concat sep l.

Definition dquote : string := String (ascii_of_nat 34) EmptyString.

(** ['"' + s + '"']. *)
Definition quote (s : string) : string := dquote +:+ s +:+ dquote.

End str.

(** ** Query construction ([query.ts]) *)

Module query.

Definition zero_params : errors.Error :=
  errors.InvalidValue "Provided Function must take at least 1 argument.".

(** [wrap(obj)].  The call of [Lambda] on a callable and the loop of
    [wrapValues] on a plain object are written out in place, since they
    call [wrap] back; [wrap_function] and [wrap_object] below relate
    them to [Lambda] and [wrapValues]. *)
Fixpoint wrap (obj : JsValue) {struct obj} : result JsValue :=
  match obj with
  | JNull => Ok JNull
  | JExpr _ | JRef _ | JSetRef _ | JTime _ | JDate _ | JBytes _ | JQuery _ =>
      Ok obj
  | JSymbol description =>
      Ok (JStr (str.replace_Symbol ("Symbol(" +:+ description +:+ ")")))
  | JFunction vars returns =>
      match vars with
      | [] => Throw zero_params
      | [v] =>
          do expr <- wrap returns;
          Ok (JExpr (JObject [("lambda", JStr v); ("expr", expr)]))
      | _ =>
          do expr <- wrap returns;
          Ok (JExpr (JObject [("lambda", JExpr (JArray (map JStr vars)));
                              ("expr", expr)]))
      end
  | JArray items =>
      do elems <-
        (fix each (l : list JsValue) : result (list JsValue) :=
           match l with
           | [] => Ok []
           | elem :: t =>
               do w <- wrap elem; do ws <- each t; Ok (w :: ws)
           end) items;
      Ok (JExpr (JArray elems))
  | JUint8Array bs | JArrayBuffer bs => Ok (JBytes bs)
  | JObject props =>
      do rv <-
        (fix each (l : Props) (rv : Props) : result Props :=
           match l with
           | [] => Ok rv
           | (key, v) :: t =>
               do w <- wrap v; each t (object.set rv key w)
           end) props [];
      Ok (JExpr (JObject [("object", JObject rv)]))
  | JUndefined | JBool _ | JNum _ | JStr _ => Ok obj
  end.

(** [obj.map(function(elem) { return wrap(elem); })]. *)
Fixpoint wrap_each (l : list JsValue) : result (list JsValue) :=
  match l with
  | [] => Ok []
  | elem :: t => do w <- wrap elem; do ws <- wrap_each t; Ok (w :: ws)
  end.

(** The loop of [wrapValues]: [rv[key] = wrap(obj[key])] for each key
    of [obj], in order. *)
Fixpoint wrap_into (l : Props) (rv : Props) : result Props :=
  match l with
  | [] => Ok rv
  | (key, v) :: t => do w <- wrap v; wrap_into t (object.set rv key w)
  end.

(** [wrapValues(obj)]. *)
Definition wrapValues (obj : JsValue) : result JsValue :=
  match obj with
  | JNull => Ok JNull
  | _ =>
      do props <- own_props obj;
      do rv <- wrap_into props [];
      Ok (JObject rv)
  end.

(** [Var(varName)], called with its one argument. *)
Definition Var (varName : JsValue) : result JsValue :=
  do _u <- arity.exact 1 1;
  do w <- wrap varName;
  Ok (JExpr (JObject [("var", w)])).

(** [_lambdaExpr(var_name, expr)]. *)
Definition _lambdaExpr (var_name expr : JsValue) : result JsValue :=
  do l <- wrap var_name;
  do e <- wrap expr;
  Ok (JExpr (JObject [("lambda", l); ("expr", e)])).

(** [_lambdaFunc(func)]: [vars] are the parameter names of [func] and
    [returns] what the call of [func] on their [Var] nodes returns. *)
Definition _lambdaFunc (vars : list string) (returns : JsValue)
  : result JsValue :=
  match vars with
  | [] => Throw zero_params
  | [v] => _lambdaExpr (JStr v) returns
  | _ => _lambdaExpr (JArray (map JStr vars)) returns
  end.

(** [Lambda(...)] on the list of its arguments. *)
Definition Lambda (args : list JsValue) : result JsValue :=
  do _u <- arity.between 1 2 (length args);
  match args with
  | [value] =>
      match value with
      | JFunction vars returns => _lambdaFunc vars returns
      | _ =>
          if instanceof_Expr value then Ok value
          else Throw (errors.InvalidValue
                        "Lambda function takes either a Function or an Expr.")
      end
  | [var_name; expr] => _lambdaExpr var_name expr
  | _ => Ok JUndefined
  end.

(** [Map(collection, lambda_expr)], called with two arguments. *)
Definition Map (collection lambda_expr : JsValue) : result JsValue :=
  do _u <- arity.exact 2 2;
  do m <- wrap lambda_expr;
  do c <- wrap collection;
  Ok (JExpr (JObject [("map", m); ("collection", c)])).

(** [Filter(collection, lambda_expr)], called with two arguments. *)
Definition Filter (collection lambda_expr : JsValue) : result JsValue :=
  do _u <- arity.exact 2 2;
  do f <- wrap lambda_expr;
  do c <- wrap collection;
  Ok (JExpr (JObject [("filter", f); ("collection", c)])).

(** [Paginate(set, opts)], called with two arguments. *)
Definition Paginate (set opts : JsValue) : result JsValue :=
  do _u <- arity.between 1 2 2;
  let opts := if truthy opts then opts else JObject [] in
  do p <- wrap set;
  do o <- wrapValues opts;
  match o with
  | JObject wrapped => Ok (JExpr (JObject (object.assign [("paginate", p)] wrapped)))
  | _ => Ok (JExpr (JObject [("paginate", p)]))
  end.

(** [varargs(values)] on an array of arguments. *)
Definition varargs (values : list JsValue) : JsValue :=
  match values with
  | [v] => v
  | _ => JArray values
  end.

(** The constructors of the shape
    [arity.min(1, arguments); return new Expr({ tag: wrap(varargs(arguments)) })]:
    [Union], [Intersection], [Difference], [Add], [Multiply],
    [Subtract], [Divide], [Modulo], [LT], [LTE], [GT], [GTE], [And],
    [Or]. *)
Definition variadic (tag : string) (args : list JsValue) : result JsValue :=
  do _u <- arity.min 1 (length args);
  do w <- wrap (varargs args);
  Ok (JExpr (JObject [(tag, w)])).

(** [Do(...args)]. *)
Definition Do (args : list JsValue) : result JsValue :=
  do _u <- arity.min 1 (length args);
  do w <- wrap (JArray args);
  Ok (JExpr (JObject [("do", w)])).

End query.

(** ** Printing expressions ([Expr.ts]) *)

Module Expr.

(** [toJSON()] of a plain [Expr]: [return this.raw]. *)
Definition toJSON (e : JsValue) : JsValue :=
  match e with
  | JExpr r => r
  | _ => JUndefined
  end.

Definition varArgsFunctions : list string :=
  ["Do"; "Call"; "Union"; "Intersection"; "Difference"; "Equals"; "Add";
   "Multiply"; "Subtract"; "Divide"; "Modulo"; "LT"; "LTE"; "GT"; "GTE";
   "And"; "Or"].

Definition specialCases : list (string * string) :=
  [("is_nonempty", "is_non_empty"); ("lt", "LT"); ("lte", "LTE");
   ("gt", "GT"); ("gte", "GTE")].

(** The names every object literal inherits: [fn in specialCases] holds
    for them too, and [specialCases[fn]] is then no string. *)
Definition inherited : list string :=
  ["constructor"; "__defineGetter__"; "__defineSetter__"; "hasOwnProperty";
   "__lookupGetter__"; "__lookupSetter__"; "isPrototypeOf";
   "propertyIsEnumerable"; "toString"; "valueOf"; "__proto__";
   "toLocaleString"].

(** [varArgsFunctions.includes(caller)]; [None] is a call without
    [caller]. *)
Definition includes (l : list string) (caller : option string) : bool :=
  match caller with
  | Some c => existsb (String.eqb c) l
  | None => false
  end.

Fixpoint lookup (table : list (string * string)) (k : string)
  : option string :=
  match table with
  | [] => None
  | (k', v) :: t => if String.eqb k k' then Some v else lookup t k
  end.

(** [fn.split('_').map(capitalize).join('')]. *)
Definition pascal (fn : string) : string :=
  str.join "" (map str.capitalize (str.split_underscore fn)).

(** The function name printed for the first key [fn] of a mapping. *)
Definition function_name (fn : string) : result string :=
  match lookup specialCases fn with
  | Some special => Ok (pascal special)
  | None =>
      if existsb (String.eqb fn) inherited
      then Throw (errors.TypeError "fn.split is not a function")
      else Ok (pascal fn)
  end.

(** [l.map(f)] for an [f] that may throw or need more fuel. *)
Fixpoint each {A} (f : A -> option (result string)) (l : list A)
  : option (result (list string)) :=
  match l with
  | [] => Some (Ok [])
  | x :: t =>
      match f x with
      | None => None
      | Some (Throw e) => Some (Throw e)
      | Some (Ok s) =>
          match each f t with
          | None => None
          | Some (Throw e) => Some (Throw e)
          | Some (Ok ss) => Some (Ok (s :: ss))
          end
      end
  end.

(** The last part of [Expr.toString], on a value that is neither a
    primitive nor an array: [keys[0]] names the function, unless it is
    the key object of escaped data.  [self] stands for the recursive
    calls of [Expr.toString]. *)
Definition toString_mapping
           (self : JsValue -> option string -> option (result string))
           (expr : JsValue) : option (result string) :=
  match own_props expr with
  | Throw e => Some (Throw e)
  | Ok [] =>
      Some (Throw (errors.TypeError
                     "Cannot read property 'split' of undefined"))
  | Ok (((fn, _) :: _) as props) =>
      if String.eqb fn "object" then
        match own_props (object.get props "object") with
        | Throw e => Some (Throw e)
        | Ok fields =>
            match each (fun kv =>
                          match self (snd kv) None with
                          | Some (Ok s) => Some (Ok (fst kv +:+ ": " +:+ s))
                          | other => other
                          end) fields with
            | None => None
            | Some (Throw e) => Some (Throw e)
            | Some (Ok strs) =>
                Some (Ok ("{" +:+ str.join ", " strs +:+ "}"))
            end
        end
      else
        match function_name fn with
        | Throw e => Some (Throw e)
        | Ok fn =>
            match each (fun kv => self (snd kv) (Some fn)) props with
            | None => None
            | Some (Throw e) => Some (Throw e)
            | Some (Ok strs) =>
                Some (Ok (fn +:+ "(" +:+ str.join ", " strs +:+ ")"))
            end
        end
  end.

(** The body of [Expr.toString(expr, caller)]. *)
Definition toString_body
           (self : JsValue -> option string -> option (result string))
           (expr : JsValue) (caller : option string)
  : option (result string) :=
  let expr := if instanceof_Expr expr then raw expr else expr in
  match expr with
  | JStr s => Some (Ok (str.quote s))
  | JSymbol description => Some (Ok ("Symbol(" +:+ description +:+ ")"))
  | JNum n => Some (Ok (Z_to_string n))
  | JBool b => Some (Ok (if b then "true" else "false"))
  | JUndefined => Some (Ok "undefined")
  | JNull => Some (Ok "null")
  | JArray items =>
      match each (fun item => self item None) items with
      | None => None
      | Some (Throw e) => Some (Throw e)
      | Some (Ok strs) =>
          let array := str.join ", " strs in
          Some (Ok (if includes varArgsFunctions caller then array
                    else "[" +:+ array +:+ "]"))
      end
  | _ => toString_mapping self expr
  end.

(** [Expr.toString], with the depth of its recursion bounded by
    [fuel]; [None] when the bound is reached. *)
Fixpoint toString_fuel (fuel : nat)
  : JsValue -> option string -> option (result string) :=
  match fuel with
  | 0 => fun _ _ => None
  | S fuel => toString_body (toString_fuel fuel)
  end.

(** A bound on the depth of the recursion of [toString] on a value. *)
Fixpoint ref_height (r : values.Ref) : nat :=
  2 + Nat.max 1 (Nat.max
                   (match values.class r with
                    | Some c => ref_height c
                    | None => 0
                    end)
                   (match values.database r with
                    | Some d => ref_height d
                    | None => 0
                    end)).

Fixpoint height (x : JsValue) : nat :=
  match x with
  | JUndefined | JNull | JBool _ | JNum _ | JStr _ | JSymbol _
  | JFunction _ _ | JArrayBuffer _ => 1
  | JUint8Array _ => 2
  | JArray items =>
      S ((fix go (l : list JsValue) : nat :=
            match l with
            | [] => 0
            | v :: t => Nat.max (height v) (go t)
            end) items)
  | JObject props =>
      S ((fix go (l : Props) : nat :=
            match l with
            | [] => 0
            | kv :: t => Nat.max (height (snd kv)) (go t)
            end) props)
  | JExpr r => S (height r)
  | JRef r => ref_height r
  | JSetRef v | JQuery v => S (height v)
  | JTime _ | JDate _ => 2
  | JBytes _ => 3
  end.

(** [Expr.toString(expr, caller)]: the recursion is run to the depth of
    the value, which [toString_fuel_enough] below shows to suffice, so
    that the last case does not arise. *)
Definition toString (expr : JsValue) (caller : option string)
  : result string :=
  match toString_fuel (height expr) expr caller with
  | Some r => r
  | None => Throw (errors.TypeError "")
  end.

End Expr.

(** ** The page helper ([PageHelper.ts])

    Helpers and the arrays of their [_faunaFunctions] are objects in a
    store, named by their addresses, so that two helpers can hold the same
    array.  The client is a log of the queries it was handed and a script
    of the replies the server will give, in order. *)

Module PageHelper.

(** The closures [map] and [filter] push: [function(q) { return
    query.Map(q, lambda); }] and the same with [query.Filter]. *)
Inductive FaunaFunction : Type :=
| MapFn (lambda : JsValue)
| FilterFn (lambda : JsValue).

Definition call (f : FaunaFunction) (q : JsValue) : result JsValue :=
  match f with
  | MapFn lambda => query.Map q lambda
  | FilterFn lambda => query.Filter q lambda
  end.

(** An instance.  [params] is [None] where the instance has no such
    property (one made by [_clone]); [writable] is false where the
    properties were defined by [Object.create] from descriptors that
    give a [value] only. *)
Record Helper : Type := mkHelper {
  set : JsValue;
  params : option Props;
  before : JsValue;
  after : JsValue;
  _faunaFunctions : nat;
  writable : bool
}.

(** What the code reads of a page: an absent field is [undefined]. *)
Record Page : Type := mkPage {
  page_data : JsValue;
  page_before : JsValue;
  page_after : JsValue
}.

Inductive Reply : Type :=
| Resolve (page : Page)
| Reject (e : errors.Error).

Record World : Type := mkWorld {
  helpers : gmap nat Helper;
  arrays : gmap nat (list FaunaFunction);
  requests : list JsValue;
  replies : list Reply;
  seen : list JsValue
}.

(** How a call ends: with a value, with an exception (thrown, or as the
    rejection of the promise), never (no reply arrives), or with the
    bound on the number of pages reached. *)
Inductive Outcome (A : Type) : Type :=
| Done (a : A)
| Raise (e : errors.Error)
| Pending
| OutOfFuel.
Arguments Done {A} a.
Arguments Raise {A} e.
Arguments Pending {A}.
Arguments OutOfFuel {A}.

Definition M (A : Type) : Type := World -> Outcome A * World.

Definition ret {A} (a : A) : M A := fun w => (Done a, w).

Definition bind {A B} (m : M A) (k : A -> M B) : M B :=
  fun w =>
    match m w with
    | (Done a, w') => k a w'
    | (Raise e, w') => (Raise e, w')
    | (Pending, w') => (Pending, w')
    | (OutOfFuel, w') => (OutOfFuel, w')
    end.

Notation "'perform' x <- m ; k" := (bind m (fun x => k))
  (at level 10, x name, m at level 100, k at level 200, only parsing).

Definition lift {A} (r : result A) : M A :=
  fun w => match r with Ok a => (Done a, w) | Throw e => (Raise e, w) end.

(** A read through an address that names no object; the addresses the
    constructor and [_clone] return do name one. *)
Definition undefined_this : errors.Error :=
  errors.TypeError "Cannot read property of undefined".

Definition helper (self : nat) : M Helper :=
  fun w => match helpers w !! self with
           | Some h => (Done h, w)
           | None => (Raise undefined_this, w)
           end.

Definition array (a : nat) : M (list FaunaFunction) :=
  fun w => match arrays w !! a with
           | Some fs => (Done fs, w)
           | None => (Raise undefined_this, w)
           end.

Definition put_helper (self : nat) (h : Helper) : M unit :=
  fun w => (Done tt, mkWorld (<[self := h]> (helpers w)) (arrays w)
                             (requests w) (replies w) (seen w)).

Definition put_array (a : nat) (fs : list FaunaFunction) : M unit :=
  fun w => (Done tt, mkWorld (helpers w) (<[a := fs]> (arrays w))
                             (requests w) (replies w) (seen w)).

(** [[]]: a new array. *)
Definition new_array : M nat :=
  fun w => let a := fresh (dom (arrays w)) in
           (Done a, mkWorld (helpers w) (<[a := []]> (arrays w))
                            (requests w) (replies w) (seen w)).

(** A new object holding [h]. *)
Definition new_object (h : Helper) : M nat :=
  fun w => let self := fresh (dom (helpers w)) in
           (Done self, mkWorld (<[self := h]> (helpers w)) (arrays w)
                               (requests w) (replies w) (seen w)).

(** [client.query(expression)]: the wrapped expression is sent, and the
    promise settles with the next reply. *)
Definition client_query (expression : JsValue) : M Page :=
  perform q <- lift (query.wrap expression) ;
  fun w =>
    let sent := requests w ++ [q] in
    match replies w with
    | [] => (Pending, mkWorld (helpers w) (arrays w) sent [] (seen w))
    | Resolve page :: rest =>
        (Done page, mkWorld (helpers w) (arrays w) sent rest (seen w))
    | Reject e :: rest =>
        (Raise e, mkWorld (helpers w) (arrays w) sent rest (seen w))
    end.

(** The call [lambda(page.data)] of the callback handed to [each]: the
    callback is the caller's, and is recorded. *)
Definition callback (data : JsValue) : M unit :=
  fun w => (Done tt, mkWorld (helpers w) (arrays w) (requests w)
                             (replies w) (seen w ++ [data])).

(** [x !== undefined]. *)
Definition defined (x : JsValue) : bool :=
  match x with JUndefined => false | _ => true end.

(** [new PageHelper(client, set, params)]. *)
Definition new (set : JsValue) (params : Props) : M nat :=
  perform fns <- new_array ;
  let this_params := object.assign [] params in
  new_object
    (if object.has params "before" then
       mkHelper set (Some (object.delete this_params "before"))
                (object.get params "before") JUndefined fns true
     else if object.has params "after" then
       mkHelper set (Some (object.delete this_params "after"))
                JUndefined (object.get params "after") fns true
     else mkHelper set (Some this_params) JUndefined JUndefined fns true).

(** [_clone()]. *)
Definition _clone (self : nat) : M nat :=
  perform h <- helper self ;
  new_object (mkHelper (set h) None (before h) (after h)
                       (_faunaFunctions h) false).

(** [rv._faunaFunctions.push(f)]. *)
Definition push (rv : nat) (f : FaunaFunction) : M unit :=
  perform h <- helper rv ;
  perform fs <- array (_faunaFunctions h) ;
  put_array (_faunaFunctions h) (fs ++ [f]).

Definition map (self : nat) (lambda : JsValue) : M nat :=
  perform rv <- _clone self ;
  perform _u <- push rv (MapFn lambda) ;
  ret rv.

Definition filter (self : nat) (lambda : JsValue) : M nat :=
  perform rv <- _clone self ;
  perform _u <- push rv (FilterFn lambda) ;
  ret rv.

(** The options [_retrieveNextPage] hands to [Paginate]. *)
Definition page_opts (params : option Props) (cursor : JsValue)
           (reverse : bool) : Props :=
  let opts := object.assign [] (match params with
                                | Some p => p
                                | None => []
                                end) in
  if defined cursor then
    if reverse then object.set opts "before" cursor
    else object.set opts "after" cursor
  else
    if reverse then object.set opts "before" JNull else opts.

(** [this._faunaFunctions.forEach(function(lambda) { q = lambda(q); })]. *)
Fixpoint apply_all (fs : list FaunaFunction) (q : JsValue)
  : result JsValue :=
  match fs with
  | [] => Ok q
  | f :: t => do q' <- call f q; apply_all t q'
  end.

(** The query [_retrieveNextPage] builds. *)
Definition page_query (h : Helper) (fs : list FaunaFunction)
           (cursor : JsValue) (reverse : bool) : result JsValue :=
  do q <- query.Paginate (set h)
                         (JObject (page_opts (params h) cursor reverse));
  apply_all fs q.

Definition _retrieveNextPage (self : nat) (cursor : JsValue)
           (reverse : bool) : M Page :=
  perform h <- helper self ;
  perform fs <- array (_faunaFunctions h) ;
  perform q <- lift (page_query h fs cursor reverse) ;
  client_query q.

Definition read_only (name : string) : errors.Error :=
  errors.TypeError
    ("Cannot assign to read only property '" +:+ name +:+ "' of object").

(** [this.after = v] and [this.before = v]. *)
Definition assign_after (self : nat) (v : JsValue) : M unit :=
  perform h <- helper self ;
  if writable h then
    put_helper self (mkHelper (set h) (params h) (before h) v
                              (_faunaFunctions h) (writable h))
  else lift (Throw (read_only "after")).

Definition assign_before (self : nat) (v : JsValue) : M unit :=
  perform h <- helper self ;
  if writable h then
    put_helper self (mkHelper (set h) (params h) v (after h)
                              (_faunaFunctions h) (writable h))
  else lift (Throw (read_only "before")).

Definition _adjustCursors (self : nat) (page : Page) : M JsValue :=
  perform _a <- (if defined (page_after page)
         then assign_after self (page_after page) else ret tt) ;
  perform _b <- (if defined (page_before page)
         then assign_before self (page_before page) else ret tt) ;
  ret (page_data page).

Definition nextPage (self : nat) : M JsValue :=
  perform h <- helper self ;
  perform page <- _retrieveNextPage self (after h) false ;
  _adjustCursors self page.

Definition previousPage (self : nat) : M JsValue :=
  perform h <- helper self ;
  perform page <- _retrieveNextPage self (before h) true ;
  _adjustCursors self page.

(** The function [_consumePages(lambda, reverse)] returns, applied to a
    page; [fuel] bounds the number of further pages. *)
Fixpoint _consumePages (fuel : nat) (self : nat) (reverse : bool)
         (page : Page) : M unit :=
  perform _u <- callback (page_data page) ;
  let nextCursor := if reverse then page_before page else page_after page in
  if defined nextCursor then
    match fuel with
    | 0 => fun w => (OutOfFuel, w)
    | S fuel =>
        perform next <- _retrieveNextPage self nextCursor reverse ;
        _consumePages fuel self reverse next
    end
  else ret tt.

Definition each_upto (fuel : nat) (self : nat) : M unit :=
  perform h <- helper self ;
  perform page <- _retrieveNextPage self (after h) false ;
  _consumePages fuel self false page.

Definition eachReverse_upto (fuel : nat) (self : nat) : M unit :=
  perform h <- helper self ;
  perform page <- _retrieveNextPage self (before h) true ;
  _consumePages fuel self true page.

(** [each(lambda)] and [eachReverse(lambda)]: every page but the first
    takes a reply of the script, so its length bounds their number. *)
Definition each (self : nat) : M unit :=
  fun w => each_upto (length (replies w)) self w.

Definition eachReverse (self : nat) : M unit :=
  fun w => eachReverse_upto (length (replies w)) self w.

(** [n] calls of [nextPage()], each made when the one before has
    resolved; the data they returned. *)
Fixpoint nextPages (n : nat) (self : nat) : M (list JsValue) :=
  match n with
  | 0 => ret []
  | S n =>
      perform d <- nextPage self ;
      perform ds <- nextPages n self ;
      ret (d :: ds)
  end.

(** The cursor a helper holds after the pages [pages], starting from
    [init]: the last one reported. *)
Definition reported (field : Page -> JsValue) (pages : list Page)
           (init : JsValue) : JsValue :=
  fold_left (fun cur page => if defined (field page) then field page
                             else cur) pages init.

Definition empty : World := mkWorld ∅ ∅ [] [] [].

Definition script (rs : list Reply) : World := mkWorld ∅ ∅ [] rs [].

End PageHelper.

(** ** Vocabulary of the statements *)

(** The [id] argument is empty or absent. *)
Definition empty_or_absent (a : values.IdArg) : Prop :=
  a = values.IdUndefined \/ a = values.IdNull \/ a = values.IdString "".

(** No [Ref] reachable through [class] and [database] has an empty
    [id]. *)
Fixpoint nonempty_ids (r : values.Ref) : Prop :=
  values.id r <> ""
  /\ match values.class r with Some c => nonempty_ids c | None => True end
  /\ match values.database r with Some d => nonempty_ids d | None => True end.

(** The tags of the constructors that print as the names of
    [varArgsFunctions]: [Do], [Call], [Union], [Intersection],
    [Difference], [Equals], the arithmetic and comparison operators,
    [And] and [Or]. *)
Definition variadic_tags : list string :=
  ["do"; "call"; "union"; "intersection"; "difference"; "equals"; "add";
   "multiply"; "subtract"; "divide"; "modulo"; "lt"; "lte"; "gt"; "gte";
   "and"; "or"].

(** The transforms a helper applies: the array its [_faunaFunctions]
    names. *)
Definition chain (w : PageHelper.World) (self : nat)
  : option (list PageHelper.FaunaFunction) :=
  match PageHelper.helpers w !! self with
  | Some h => PageHelper.arrays w !! PageHelper._faunaFunctions h
  | None => None
  end.

(** The [before] and [after] cursors a helper holds. *)
Definition cursors (w : PageHelper.World) (self : nat)
  : option (JsValue * JsValue) :=
  match PageHelper.helpers w !! self with
  | Some h => Some (PageHelper.before h, PageHelper.after h)
  | None => None
  end.

(** A helper whose cursors were overwritten by those a page reports. *)
Definition adjusted (h : PageHelper.Helper) (page : PageHelper.Page)
  : PageHelper.Helper :=
  PageHelper.mkHelper
    (PageHelper.set h) (PageHelper.params h)
    (if PageHelper.defined (PageHelper.page_before page)
     then PageHelper.page_before page else PageHelper.before h)
    (if PageHelper.defined (PageHelper.page_after page)
     then PageHelper.page_after page else PageHelper.after h)
    (PageHelper._faunaFunctions h) (PageHelper.writable h).

(** A computation that writes neither to a helper nor to an array. *)
Definition reads_only {A} (m : PageHelper.M A) : Prop :=
  forall w,
    PageHelper.helpers (snd (m w)) = PageHelper.helpers w
    /\ PageHelper.arrays (snd (m w)) = PageHelper.arrays w.

(** No callable without parameters is met by [wrap]: it looks into
    arrays, into plain objects and into what a callable returns, and
    takes instances of [Expr] as they are. *)
Fixpoint accepted (x : JsValue) : bool :=
  match x with
  | JFunction vars returns =>
      match vars with [] => false | _ => accepted returns end
  | JArray items =>
      (fix all (l : list JsValue) : bool :=
         match l with
         | [] => true
         | v :: t => accepted v && all t
         end) items
  | JObject props =>
      (fix all (l : Props) : bool :=
         match l with
         | [] => true
         | kv :: t => accepted (snd kv) && all t
         end) props
  | _ => true
  end.

(** The call raises an exception of the class [kind]. *)
Definition raises {A} (kind : string) (r : result A) : Prop :=
  match r with
  | Throw e => errors.name e = kind
  | Ok _ => False
  end.

(** Two calls end alike: both raise, or both return the same. *)
Definition agree {A} (r1 r2 : result A) : Prop :=
  match r1, r2 with
  | Ok x, Ok y => x = y
  | Throw _, Throw _ => True
  | _, _ => False
  end.

(** [Expr.toString(wrap(x), caller)]. *)
Definition render_wrapped (x : JsValue) (caller : option string)
  : result string :=
  do w <- query.wrap x; Expr.toString w caller.

(** [Expr.toString(wrap(a)) + ', ' + Expr.toString(wrap(b))]. *)
Definition joined (a b : JsValue) : result string :=
  do ra <- render_wrapped a None;
  do rb <- render_wrapped b None;
  Ok (ra +:+ ", " +:+ rb).

(** The elements of an array, each printed without caller. *)
Fixpoint render_items (items : list JsValue) : result (list string) :=
  match items with
  | [] => Ok []
  | x :: t =>
      do r <- Expr.toString x None; do rs <- render_items t; Ok (r :: rs)
  end.

(** ** Optional parameters and the read functions ([query.ts]) *)

Module reads.

(** [params(mainParams, optionalParams)]: every optional parameter
    whose value is not [null] is set in [mainParams]. *)
Definition params (mainParams optionalParams : Props) : Props :=
  fold_left (fun main kv =>
               match snd kv with
               | JNull => main
               | val => object.set main (fst kv) val
               end) optionalParams mainParams.

(** [arguments[i]]: [undefined] past the end. *)
Definition argument (args : list JsValue) (i : nat) : JsValue :=
  nth i args JUndefined.

(** [Get(ref, ts)] on the list of its arguments. *)
Definition Get (args : list JsValue) : result JsValue :=
  do _u <- arity.between 1 2 (length args);
  let ref := argument args 0 in
  let ts := if truthy (argument args 1) then argument args 1 else JNull in
  do g <- query.wrap ref;
  do t <- query.wrap ts;
  Ok (JExpr (JObject (params [("get", g)] [("ts", t)]))).

(** [Exists(ref, ts)] on the list of its arguments. *)
Definition Exists (args : list JsValue) : result JsValue :=
  do _u <- arity.between 1 2 (length args);
  let ref := argument args 0 in
  let ts := if truthy (argument args 1) then argument args 1 else JNull in
  do e <- query.wrap ref;
  do t <- query.wrap ts;
  Ok (JExpr (JObject (params [("exists", e)] [("ts", t)]))).

End reads.

(** ** Objects without undefined values ([_util.ts]) and the keys a test
    takes of its configuration ([test/util.ts]) *)

Module _util.

(** [removeUndefinedValues(object)]. *)
Definition removeUndefinedValues (object : Props) : Props :=
  fold_left (fun res kv =>
               match snd kv with
               | JUndefined => res
               | val => object.set res (fst kv) val
               end) object [].

(** [takeObjectKeys(object, ...args)]. *)
Definition takeObjectKeys (object : Props) (args : list string) : Props :=
  fold_left (fun out key => object.set out key (object.get object key))
            args [].

End _util.

(** ** Errors of the server ([errors.ts], [FaunaHTTPError]) *)

Module http.

(** What [FaunaHTTPError] reads of a [RequestResult]: the status code,
    and the [code] of each entry of [responseContent.errors]. *)
Record RequestResult : Type := mkRequestResult {
  statusCode : Z;
  errors : list string
}.

Record FaunaHTTPError : Type := mkFaunaHTTPError {
  name : string;
  message : string
}.

(** [new FaunaHTTPError(name, requestResult)] and its subclasses, which
    fix the name. *)
Definition new_FaunaHTTPError (name : string) (requestResult : RequestResult)
  : FaunaHTTPError :=
  mkFaunaHTTPError name
    (match errors requestResult with
     | [] => "(empty " +:+ str.dquote +:+ "errors" +:+ str.dquote +:+ ")"
     | first :: _ => first
     end).

(** [FaunaHTTPError.raiseForStatusCode(requestResult)]: [None] when it
    returns, the error it throws otherwise. *)
Definition raiseForStatusCode (requestResult : RequestResult)
  : option FaunaHTTPError :=
  let code := statusCode requestResult in
  if (code <? 200)%Z || (300 <=? code)%Z then
    Some (new_FaunaHTTPError
            (if (code =? 400)%Z then "BadRequest"
             else if (code =? 401)%Z then "Unauthorized"
             else if (code =? 403)%Z then "PermissionDenied"
             else if (code =? 404)%Z then "NotFound"
             else if (code =? 405)%Z then "MethodNotAllowed"
             else if (code =? 500)%Z then "InternalError"
             else if (code =? 503)%Z then "UnavailableError"
             else "UnknownError")
            requestResult)
  else None.

End http.

(** ** The last transaction time a client has seen ([Client.ts],
    [_execute]) *)

Module Client.

(** What [parseInt] returns: [NaN], or an integer. *)
Inductive Number : Type :=
| NaN
| Int (z : Z).

(** [a < b] on numbers: false as soon as one is [NaN]. *)
Definition less (a b : Number) : bool :=
  match a, b with
  | Int x, Int y => (x <? y)%Z
  | _, _ => false
  end.

(** The update of [_lastSeen] (initially [null], here [None]) on a
    response whose text has been parsed; [header] is [None] when the
    response has no x-last-seen-txn header, and what [parseInt] makes of
    it otherwise. *)
Definition update_lastSeen (lastSeen : option Number)
           (header : option Number) : option Number :=
  match header with
  | None => lastSeen
  | Some time =>
      match lastSeen with
      | None => Some time
      | Some seen => if less seen time then Some time else lastSeen
      end
  end.

(** [if (this._lastSeen)]: whether the next request carries the
    header. *)
Definition sends_lastSeen (lastSeen : option Number) : bool :=
  match lastSeen with
  | Some (Int z) => negb (Z.eqb z 0)
  | _ => false
  end.

End Client.

(** ** Printing a [Ref] ([values.ts], [wrapToString(Ref, ...)]) *)

Module Ref.

Section engine.

(** The text the engine gives, in a string concatenation, for the
    property of the name [k] that the object literal [constructors]
    inherits (a function, or the prototype itself). *)
Variable inherited_text : string -> string.

(** [constructors[k]]; [None] is [undefined]. *)
Definition constructors (k : string) : option string :=
  match Expr.lookup [("classes", "Class"); ("databases", "Database");
                     ("indexes", "Index"); ("functions", "Function")] k with
  | Some constructor => Some constructor
  | None =>
      if existsb (String.eqb k) Expr.inherited then Some (inherited_text k)
      else None
  end.

(** The inner [toString(ref, prevDb)]; [ref.database.toString()] is the
    outer function, which calls it with the empty [prevDb]. *)
Fixpoint toString_from (ref : values.Ref) (prevDb : string) {struct ref}
  : result string :=
  match values.class ref, values.database ref with
  | None, None =>
      Ok (str.capitalize (values.id ref) +:+ "(" +:+ prevDb +:+ ")")
  | None, Some _ =>
      Throw (errors.TypeError "Cannot read property 'id' of undefined")
  | Some c, database =>
      match constructors (values.id c) with
      | Some constructor =>
          do db <- match database with
                   | Some d => do s <- toString_from d ""; Ok (", " +:+ s)
                   | None => Ok ""
                   end;
          Ok (constructor +:+ "(" +:+ str.quote (values.id ref) +:+ db
              +:+ ")")
      | None =>
          do db <- match database with
                   | Some d => toString_from d ""
                   | None => Ok ""
                   end;
          do s <- toString_from c db;
          Ok ("Ref(" +:+ s +:+ ", " +:+ str.quote (values.id ref) +:+ ")")
      end
  end.

(** [ref.toString()]. *)
Definition toString (ref : values.Ref) : result string :=
  toString_from ref "".

End engine.

End Ref.

(** ** Vocabulary of the further statements *)

(** No character of the string is a line terminator. *)
Definition one_line (s : string) : Prop :=
  forall c, In c (chars s) -> str.line_terminator c = false.

(** [wrap] meets no callable in the value: it looks into arrays and into
    plain objects, and takes instances of [Expr] as they are. *)
Fixpoint callable_free (x : JsValue) : bool :=
  match x with
  | JFunction _ _ => false
  | JArray items =>
      (fix all (l : list JsValue) : bool :=
         match l with
         | [] => true
         | v :: t => callable_free v && all t
         end) items
  | JObject props =>
      (fix all (l : Props) : bool :=
         match l with
         | [] => true
         | kv :: t => callable_free (snd kv) && all t
         end) props
  | _ => true
  end.

(** No plain object that [wrap] reaches in the value, through arrays and
    plain objects, has the key __proto__: assigning this key, as
    [wrapValues] does to copy it, makes no property. *)
Fixpoint proto_free (x : JsValue) : bool :=
  match x with
  | JArray items =>
      (fix all (l : list JsValue) : bool :=
         match l with
         | [] => true
         | v :: t => proto_free v && all t
         end) items
  | JObject props =>
      negb (object.has props "__proto__")
      && (fix all (l : Props) : bool :=
            match l with
            | [] => true
            | kv :: t => proto_free (snd kv) && all t
            end) props
  | _ => true
  end.

(** [k] names a property that every object literal inherits: a read of
    [o[k]] finds it when [o] has no own property of this name. *)
Definition inherits (k : string) : bool :=
  existsb (String.eqb k) Expr.inherited.

Definition digit (c : ascii) : bool :=
  let n := nat_of_ascii c in Nat.leb 48 n && Nat.leb n 57.

(** [k] begins with a digit, as every key that is an array index
    does. *)
Definition index_like (k : string) : bool :=
  match k with
  | String c _ => digit c
  | EmptyString => false
  end.

(** A key for which [o[k] = v] does what [object.set] says: the
    assignment makes an own property, listed after the ones there are.
    The key __proto__ is not such a key (the assignment sets the
    prototype and makes no property), nor is an array index (listed
    before the other keys). *)
Definition ordinary (k : string) : bool :=
  negb (String.eqb k "__proto__") && negb (index_like k).

Definition ordinary_keys (o : Props) : Prop :=
  Forall (fun k => ordinary k = true) (object.keys o).

(** An integer that a number holds exactly and prints in full
    ([Number.MAX_SAFE_INTEGER] bounds it). *)
Definition safe (n : Z) : bool := (Z.abs n <=? 9007199254740991)%Z.

(** The tags of the constructors [query.variadic] embeds. *)
Definition variadic_constructors : list string :=
  ["union"; "intersection"; "difference"; "add"; "multiply"; "subtract";
   "divide"; "modulo"; "lt"; "lte"; "gt"; "gte"; "and"; "or"].

(** Data a caller writes down: primitives, with safe integers for
    numbers, arrays of data, and plain objects of data whose keys are
    ordinary and not repeated. *)
Fixpoint plain (x : JsValue) : Prop :=
  match x with
  | JUndefined | JNull | JBool _ | JStr _ => True
  | JNum n => safe n = true
  | JArray items =>
      (fix all (l : list JsValue) : Prop :=
         match l with
         | [] => True
         | v :: t => plain v /\ all t
         end) items
  | JObject props =>
      object.wf props
      /\ ordinary_keys props
      /\ (fix all (l : Props) : Prop :=
            match l with
            | [] => True
            | kv :: t => plain (snd kv) /\ all t
            end) props
  | _ => False
  end.

(** Data as one writes it: strings between double quotes, arrays
    between brackets, objects between braces with their keys bare. *)
Fixpoint show (x : JsValue) : string :=
  match x with
  | JUndefined => "undefined"
  | JNull => "null"
  | JBool b => if b then "true" else "false"
  | JNum n => Z_to_string n
  | JStr s => str.quote s
  | JArray items =>
      "[" +:+ str.join ", "
                ((fix all (l : list JsValue) : list string :=
                    match l with
                    | [] => []
                    | v :: t => show v :: all t
                    end) items) +:+ "]"
  | JObject props =>
      "{" +:+ str.join ", "
                ((fix all (l : Props) : list string :=
                    match l with
                    | [] => []
                    | kv :: t => (fst kv +:+ ": " +:+ show (snd kv)) :: all t
                    end) props) +:+ "}"
  | _ => ""
  end.

(** The fields of an escaped object, each printed after its key. *)
Fixpoint render_fields (fields : Props) : result (list string) :=
  match fields with
  | [] => Ok []
  | kv :: t =>
      do r <- Expr.toString (snd kv) None;
      do rs <- render_fields t;
      Ok ((fst kv +:+ ": " +:+ r) :: rs)
  end.

(** The pages among replies. *)
Fixpoint resolved (rs : list PageHelper.Reply) : list PageHelper.Page :=
  match rs with
  | [] => []
  | PageHelper.Resolve page :: t => page :: resolved t
  | PageHelper.Reject _ :: t => resolved t
  end.

(** [n] calls of [previousPage()], each made when the one before has
    resolved; the data they returned. *)
Fixpoint previousPages (n : nat) (self : nat)
  : PageHelper.M (list JsValue) :=
  match n with
  | 0 => PageHelper.ret []
  | S n =>
      PageHelper.bind (PageHelper.previousPage self) (fun d =>
      PageHelper.bind (previousPages n self) (fun ds =>
      PageHelper.ret (d :: ds)))
  end.

(** The greatest of [init] and the integers among the headers. *)
Definition greatest (init : Z) (headers : list (option Client.Number)) : Z :=
  fold_left (fun m header => match header with
                             | Some (Client.Int z) => Z.max m z
                             | _ => m
                             end) headers init.

(** [x === null]. *)
Definition is_null (x : JsValue) : bool :=
  match x with JNull => true | _ => false end.

(** Every reference reached through [class] and [database] that has a
    [database] has a [class]. *)
Fixpoint classed (r : values.Ref) : Prop :=
  match values.class r, values.database r with
  | None, None => True
  | None, Some _ => False
  | Some c, d =>
      classed c /\ match d with Some d => classed d | None => True end
  end.

(** What a traversal that started in [w] and ended as [r] has done: it
    took the replies [consumed] off the script, called back once with
    the data of each page among them, in their order, and sent one
    request for each reply taken, and one more when it is left
    waiting. *)
Definition traversed (w : PageHelper.World)
           (r : PageHelper.Outcome unit * PageHelper.World) : Prop :=
  exists consumed,
    PageHelper.replies w = consumed ++ PageHelper.replies (snd r)
    /\ PageHelper.seen (snd r)
       = PageHelper.seen w
         ++ List.map PageHelper.page_data (resolved consumed)
    /\ length (PageHelper.requests (snd r))
       = length (PageHelper.requests w) + length consumed
         + match fst r with PageHelper.Pending => 1 | _ => 0 end.

(** * Properties *)

(** ** [Ref] *)

(** C8.  [new Ref] raises [InvalidValue] exactly when the id is empty or
    absent; otherwise the instance holds the id and the two other
    arguments.  Hence a [Ref] built by the constructor, from parts built
    by it, has no empty id. *)
Theorem Ref_id_nonempty (a : values.IdArg) (c d : option values.Ref) :
  (values.new_Ref a c d
   = Throw (errors.InvalidValue "id cannot be null or undefined")
   <-> empty_or_absent a)
  /\ (forall s, a = values.IdString s -> s <> "" ->
        values.new_Ref a c d = Ok (values.mkRef s c d))
  /\ (forall r, values.new_Ref a c d = Ok r ->
        a = values.IdString (values.id r) /\ values.id r <> "")
  /\ (forall r, values.constructed r -> nonempty_ids r).
Proof.
  assert (Hnew : forall a c d r, values.new_Ref a c d = Ok r ->
            a = values.IdString (values.id r) /\ values.id r <> ""
            /\ values.class r = c /\ values.database r = d).
  { intros a' c' d' r. unfold values.new_Ref.
    destruct a' as [| |s]; simpl; try discriminate.
    destruct (String.eqb_spec s ""); [discriminate|].
    intros [= <-]. simpl. auto. }
  repeat split.
  - unfold values.new_Ref, empty_or_absent.
    destruct a as [| |s]; simpl; auto.
    destruct (String.eqb_spec s ""); [subst; auto | discriminate].
  - unfold values.new_Ref, empty_or_absent.
    intros [ -> | [ -> | -> ] ]; reflexivity.
  - intros s -> Hs. unfold values.new_Ref. simpl.
    destruct (String.eqb_spec s ""); [contradiction | reflexivity].
  - apply (Hnew _ _ _ _ H).
  - apply (Hnew _ _ _ _ H).
  - intros r Hr. clear a c d.
    induction Hr as [a c d r Hr Hc IHc Hd IHd].
    destruct (Hnew _ _ _ _ Hr) as (_ & Hid & <- & <-).
    destruct r as [i rc rd]; simpl in *. repeat split.
    + exact Hid.
    + destruct rc; [apply IHc; reflexivity | exact I].
    + destruct rd; [apply IHd; reflexivity | exact I].
Qed.

(** [equals] never answers otherwise than structural equality does: when
    it returns at all, it returns what [same] computes. *)
Lemma equals_sound (a b : values.Ref) (v : bool) :
  values.equals a (Some b) = Ok v -> v = values.same a b.
Proof.
  remember (Expr.ref_height a) as n eqn:Hn.
  revert a Hn b v.
  induction n as [n IHn] using lt_wf_ind.
  intros [i c d] Hn.
  assert (IH : forall y, Expr.ref_height y < Expr.ref_height (values.mkRef i c d) ->
            forall b v, values.equals y (Some b) = Ok v -> v = values.same y b).
  { intros y Hy. apply (IHn (Expr.ref_height y)); [lia | reflexivity]. }
  clear IHn Hn.
  intros [j c' d'] v. simpl.
  destruct (String.eqb i j); simpl; [|intros [= <-]; reflexivity].
  assert (Hsub : forall x, (c = Some x \/ d = Some x) ->
            Expr.ref_height x < Expr.ref_height (values.mkRef i c d)).
  { intros x [-> | ->]; simpl; lia. }
  destruct c as [c1|], c' as [c2|]; simpl.
  - destruct (values.equals c1 (Some c2)) as [vc|e] eqn:Hc; [|discriminate].
    apply IH in Hc; [|apply Hsub; auto]. subst vc.
    destruct (values.same c1 c2); simpl; [|intros [= <-]; reflexivity].
    destruct d as [d1|], d' as [d2|]; simpl.
    + intros Hd. apply IH in Hd; [|apply Hsub; auto]. exact Hd.
    + destruct d1; simpl; intros [= <-]; reflexivity.
    + discriminate.
    + intros [= <-]; reflexivity.
  - destruct c1; simpl; intros [= <-]; reflexivity.
  - discriminate.
  - destruct d as [d1|], d' as [d2|]; simpl.
    + intros Hd. apply IH in Hd; [|apply Hsub; auto]. exact Hd.
    + destruct d1; simpl; intros [= <-]; reflexivity.
    + discriminate.
    + intros [= <-]; reflexivity.
Qed.

(** C5.  [equals] is not total: with equal ids, no [class] on the left
    and one on the right, it raises [TypeError] where structural
    equality answers false, and likewise for [database]; with the field
    on the left only, it answers false. *)
Theorem Ref_equals_raises :
  let classes := values.mkRef "classes" None None in
  let a := values.mkRef "1" None None in
  let b := values.mkRef "1" (Some classes) None in
  let b' := values.mkRef "1" None (Some classes) in
  raises "TypeError" (values.equals a (Some b))
  /\ raises "TypeError" (values.equals a (Some b'))
  /\ values.same a b = false
  /\ values.same a b' = false
  /\ values.equals b (Some a) = Ok false
  /\ values.equals b' (Some a) = Ok false.
Proof. repeat split. Qed.

(** [equals] raises whenever the ids are equal, the left side has no
    [class] and the right side has one. *)
Lemma equals_raises_left (i : string) (d d' : option values.Ref)
      (c : values.Ref) :
  raises "TypeError"
         (values.equals (values.mkRef i None d)
                        (Some (values.mkRef i (Some c) d'))).
Proof. simpl. rewrite String.eqb_refl. reflexivity. Qed.

(** ** [FaunaTime] *)

Lemma get_last_Z (s : string) (c : ascii) :
  String.get (String.length s) (String c s) = Some "Z"%char
  <-> FaunaTime.ends_with_Z (String c s).
Proof.
  unfold FaunaTime.ends_with_Z. revert c.
  induction s as [|c' s' IH]; intros c.
  - simpl. split.
    + intros [= ->]. exists "". reflexivity.
    + intros [[|x [|y p]] Hp]; simpl in Hp; inversion Hp; reflexivity.
  - change (String.get (String.length (String c' s'))
                       (String c (String c' s')))
      with (String.get (String.length s') (String c' s')).
    rewrite IH. split.
    + intros [p Hp]. exists (String c p). simpl. now rewrite Hp.
    + intros [[|x p] Hp]; simpl in Hp; [discriminate|].
      inversion Hp. eauto.
Qed.

Lemma charAt_last_Z (s : string) :
  FaunaTime.charAt s (Z.of_nat (String.length s) - 1) = "Z"
  <-> FaunaTime.ends_with_Z s.
Proof.
  destruct s as [|c t].
  - unfold FaunaTime.charAt, FaunaTime.ends_with_Z. simpl.
    split; [discriminate|]. intros [[|x p] Hp]; discriminate.
  - rewrite <- get_last_Z. unfold FaunaTime.charAt.
    replace (Z.of_nat (String.length (String c t)) - 1)%Z
      with (Z.of_nat (String.length t)) by (simpl String.length; lia).
    destruct (Z.ltb_spec (Z.of_nat (String.length t)) 0) as [Hlt|_]; [lia|].
    rewrite Nat2Z.id.
    destruct (String.get (String.length t) (String c t)) as [ch|].
    + split; [intros [= ->]; reflexivity | intros [= ->]; reflexivity].
    + split; discriminate.
Qed.

(** C9.  [new FaunaTime] on a string raises [InvalidValue] exactly when
    the string does not end with Z; otherwise the string is kept as it is
    and [toJSON] gives the single-key object of the tag @ts.  An explicit
    offset is refused and a fraction of nine digits is kept. *)
Theorem FaunaTime_utc_only (s : string) :
  (FaunaTime.new (FaunaTime.OfString s)
   = Throw (errors.InvalidValue ("Only allowed timezone is 'Z', got: " +:+ s))
   <-> ~ FaunaTime.ends_with_Z s)
  /\ (FaunaTime.new (FaunaTime.OfString s) = Ok (JTime s)
      <-> FaunaTime.ends_with_Z s)
  /\ FaunaTime.toJSON (JTime s) = JObject [("@ts", JStr s)]
  /\ is_Ok (FaunaTime.new
              (FaunaTime.OfString "1970-01-01T00:00:00.000+04:00")) = false
  /\ FaunaTime.new (FaunaTime.OfString "1970-01-01T00:00:00.123456789Z")
     = Ok (JTime "1970-01-01T00:00:00.123456789Z").
Proof.
  pose proof (charAt_last_Z s) as HZ.
  unfold FaunaTime.new.
  destruct (String.eqb_spec
              (FaunaTime.charAt s (Z.of_nat (String.length s) - 1)) "Z")
    as [Heq|Hne]; simpl.
  - repeat split; try discriminate; tauto.
  - repeat split; try discriminate; tauto.
Qed.

(** ** [wrap] *)

Lemma wrap_array (items : list JsValue) :
  query.wrap (JArray items)
  = do elems <- query.wrap_each items; Ok (JExpr (JArray elems)).
Proof. reflexivity. Qed.

Lemma wrap_object (props : Props) :
  query.wrap (JObject props)
  = do rv <- query.wrap_into props [];
    Ok (JExpr (JObject [("object", JObject rv)])).
Proof. reflexivity. Qed.

(** [wrap] escapes what [wrapValues] returns. *)
Lemma wrap_wrapValues (props : Props) :
  query.wrap (JObject props)
  = do o <- query.wrapValues (JObject props);
    Ok (JExpr (JObject [("object", o)])).
Proof.
  rewrite wrap_object. unfold query.wrapValues, own_props.
  destruct (query.wrap_into props []); reflexivity.
Qed.

Lemma wrap_each_strings (vars : list string) :
  query.wrap_each (List.map JStr vars) = Ok (List.map JStr vars).
Proof.
  induction vars as [|v t IH]; simpl; [reflexivity|]. now rewrite IH.
Qed.

(** [wrap] on a callable is the call of [Lambda] on it. *)
Lemma wrap_function (vars : list string) (returns : JsValue) :
  query.wrap (JFunction vars returns)
  = query.Lambda [JFunction vars returns].
Proof.
  destruct vars as [|v [|v' t]]; try reflexivity.
  unfold query.Lambda, query._lambdaFunc, query._lambdaExpr.
  rewrite wrap_array, wrap_each_strings. reflexivity.
Qed.

Lemma in_keys (o : Props) (k : string) (v : JsValue) :
  In (k, v) o -> k ∈ object.keys o.
Proof.
  intros Hin. apply list_elem_of_In. apply (in_map fst) in Hin. exact Hin.
Qed.

Lemma set_fresh (o : Props) (k : string) (v : JsValue) :
  k ∉ object.keys o -> object.set o k v = o ++ [(k, v)].
Proof.
  induction o as [|[k' v'] t IH]; simpl; intros Hk; [reflexivity|].
  apply not_elem_of_cons in Hk as [Hne Hk].
  destruct (String.eqb_spec k k') as [->|_]; [tauto|].
  now rewrite IH.
Qed.

Lemma get_in (o : Props) (k : string) (v : JsValue) :
  object.wf o -> In (k, v) o -> object.get o k = v.
Proof.
  unfold object.wf.
  induction o as [|[k' v'] t IH]; simpl; intros Hnd Hin; [tauto|].
  apply NoDup_cons in Hnd as [Hk' Ht].
  destruct Hin as [[= -> ->]|Hin].
  - now rewrite String.eqb_refl.
  - destruct (String.eqb_spec k k') as [->|Hne]; [|auto].
    exfalso. apply Hk'. apply (in_keys _ _ _ Hin).
Qed.

(** The loop of [wrapValues] on distinct keys that are not yet in [rv]:
    the wrapped values are added after [rv], under their keys, in
    order. *)
Lemma wrap_into_app (l rv : Props) :
  NoDup (object.keys l) ->
  (forall k, k ∈ object.keys l -> k ∉ object.keys rv) ->
  (forall k v, In (k, v) l -> is_Ok (query.wrap v) = true) ->
  exists ws,
    query.wrap_into l rv = Ok (rv ++ ws)
    /\ Forall2 (fun kv kw => fst kw = fst kv
                             /\ query.wrap (snd kv) = Ok (snd kw)) l ws.
Proof.
  revert rv. induction l as [|[k v] t IH]; intros rv Hnd Hrv Hok.
  - exists []. simpl. rewrite app_nil_r. auto.
  - simpl. destruct (query.wrap v) as [w|e] eqn:Hw.
    2:{ specialize (Hok k v (or_introl eq_refl)). rewrite Hw in Hok.
        discriminate. }
    simpl in Hnd. apply NoDup_cons in Hnd as [Hk Ht].
    rewrite set_fresh by (apply Hrv; simpl; apply elem_of_cons; auto).
    destruct (IH (rv ++ [(k, w)])) as (ws & Hws & Hall).
    + exact Ht.
    + intros k' Hk'. unfold object.keys. rewrite map_app. simpl.
      apply not_elem_of_app. split.
      * apply Hrv. simpl. apply elem_of_cons. auto.
      * intros Hin. apply list_elem_of_singleton in Hin. congruence.
    + intros k' v' Hin. apply (Hok k' v'). now right.
    + exists ((k, w) :: ws). rewrite Hws, <- app_assoc. split; [reflexivity|].
      constructor; [simpl; auto | exact Hall].
Qed.

Lemma wrapped_keys (l ws : Props) :
  Forall2 (fun kv kw => fst kw = fst kv
                        /\ query.wrap (snd kv) = Ok (snd kw)) l ws ->
  object.keys ws = object.keys l.
Proof.
  induction 1 as [|[k v] [k' w] l ws [Hk _] _ IH]; simpl; [reflexivity|].
  simpl in Hk. now rewrite Hk, IH.
Qed.

Lemma wrapped_get (l ws : Props) (k : string) (v : JsValue) :
  object.wf l ->
  Forall2 (fun kv kw => fst kw = fst kv
                        /\ query.wrap (snd kv) = Ok (snd kw)) l ws ->
  In (k, v) l -> query.wrap v = Ok (object.get ws k).
Proof.
  unfold object.wf. intros Hnd Hall. revert Hnd.
  induction Hall as [|[k1 v1] [k2 w] l ws [Hk Hw] _ IH]; simpl;
    intros Hnd Hin; [tauto|].
  simpl in Hk, Hw. subst k2. apply NoDup_cons in Hnd as [Hk1 Hl].
  destruct Hin as [[= -> ->]|Hin].
  - now rewrite String.eqb_refl.
  - destruct (String.eqb_spec k k1) as [->|Hne]; [|auto].
    exfalso. apply Hk1. apply (in_keys _ _ _ Hin).
Qed.

(** When the wrapping of a value raises, so does that of the object. *)
Lemma wrap_into_raises (l rv : Props) (k : string) (v : JsValue)
      (e : errors.Error) :
  In (k, v) l -> query.wrap v = Throw e ->
  exists e', query.wrap_into l rv = Throw e'.
Proof.
  revert rv. induction l as [|[k' v'] t IH]; simpl; intros rv Hin Hv; [tauto|].
  destruct Hin as [[= -> ->]|Hin].
  - rewrite Hv. eauto.
  - destruct (query.wrap v'); eauto.
Qed.

Lemma wrap_object_raises (m : Props) (k : string) (v : JsValue)
      (e : errors.Error) :
  In (k, v) m -> query.wrap v = Throw e ->
  exists e', query.wrap (JObject m) = Throw e'.
Proof.
  intros Hin Hv. rewrite wrap_object.
  destruct (wrap_into_raises m [] k v e Hin Hv) as [e' ->]. eauto.
Qed.

(** [wrap] raises on a callable without parameters, met in the value
    itself, in an array, in a plain object or in what a callable
    returns, and on nothing else; it raises [InvalidValue]. *)
Lemma wrap_accepted (x : JsValue) :
  if accepted x then exists w, query.wrap x = Ok w
  else query.wrap x = Throw query.zero_params.
Proof.
  pattern x. apply JsValue_nested_ind; clear x.
  - intros x. destruct x; simpl; eauto.
  - intros vars returns IH.
    destruct vars as [|v [|v' t]]; simpl; [reflexivity| |];
      destruct (accepted returns);
      [destruct IH as [w ->]; eauto | now rewrite IH
      |destruct IH as [w ->]; eauto | now rewrite IH].
  - intros items H. rewrite wrap_array.
    assert (Hall : if accepted (JArray items)
                   then exists ws, query.wrap_each items = Ok ws
                   else query.wrap_each items = Throw query.zero_params).
    { simpl. induction H as [|v t Hv _ IH]; simpl; [eauto|].
      destruct (accepted v); simpl.
      - destruct Hv as [w ->].
        match type of IH with
        | if ?b then _ else _ => destruct b
        end; [destruct IH as [ws ->]; eauto | now rewrite IH].
      - now rewrite Hv. }
    destruct (accepted (JArray items));
      [destruct Hall as [ws ->]; eauto | now rewrite Hall].
  - intros props H. rewrite wrap_object.
    assert (Hall : forall rv,
              if accepted (JObject props)
              then exists ws, query.wrap_into props rv = Ok ws
              else query.wrap_into props rv = Throw query.zero_params).
    { simpl. induction H as [|[k v] t Hv _ IH]; intros rv; simpl; [eauto|].
      simpl in Hv. destruct (accepted v); simpl.
      - destruct Hv as [w ->]. apply IH.
      - now rewrite Hv. }
    specialize (Hall []).
    destruct (accepted (JObject props));
      [destruct Hall as [ws ->]; eauto | now rewrite Hall].
  - intros r _. simpl. eauto.
  - intros r _. simpl. eauto.
  - intros r _. simpl. eauto.
Qed.

Lemma wrap_raises_InvalidValue (x : JsValue) (e : errors.Error) :
  query.wrap x = Throw e -> e = query.zero_params.
Proof.
  intros H. pose proof (wrap_accepted x) as Hx.
  destruct (accepted x); [destruct Hx as [w Hw] |]; congruence.
Qed.

Lemma accepted_is_Ok (x : JsValue) :
  is_Ok (query.wrap x) = accepted x.
Proof.
  pose proof (wrap_accepted x) as Hx.
  destruct (accepted x); [destruct Hx as [w ->] | rewrite Hx]; reflexivity.
Qed.

Lemma accepted_value (m : Props) (k : string) (v : JsValue) :
  accepted (JObject m) = true -> In (k, v) m -> accepted v = true.
Proof.
  simpl. induction m as [|[k' v'] t IH]; simpl; [tauto|].
  intros Hall [[= -> ->]|Hin]; apply andb_prop in Hall as [Hv Ht]; auto.
Qed.

Lemma callable_free_accepted (x : JsValue) :
  callable_free x = true -> accepted x = true.
Proof.
  pattern x. apply JsValue_nested_ind; clear x.
  - intros [ | | b | n | s | d | ps ret | items | bs | bs | ops | e | r
             | v | s | s | bs | v ]; try exact I; intros _; reflexivity.
  - intros vars returns _. discriminate.
  - intros items IH. simpl.
    induction IH as [|v t Hv _ IHt]; [reflexivity|].
    intros H. apply andb_prop in H as [H1 H2].
    now rewrite (Hv H1), (IHt H2).
  - intros props IH. simpl.
    induction IH as [|kv t Hv _ IHt]; [reflexivity|].
    intros H. apply andb_prop in H as [H1 H2].
    now rewrite (Hv H1), (IHt H2).
  - intros r _ _. reflexivity.
  - intros v _ _. reflexivity.
  - intros v _ _. reflexivity.
Qed.

(** C2, as the code has it.  Take a plain object without repeated keys
    in which [wrap] meets no callable and no key __proto__.  Then [wrap]
    returns an expression whose raw form has the single key object, over
    a mapping with the keys of the argument and the wrapped values under
    them, and the encoded form of this expression differs from that of
    every mapping expression whose first key, the function tag, is not
    object.  (A callable among the values is applied by [Lambda], and
    [wrap] throws what the callable throws; the assignment of the key
    __proto__ makes no property.) *)
Theorem wrap_escapes_object (m : Props) :
  object.wf m ->
  proto_free (JObject m) = true ->
  callable_free (JObject m) = true ->
  exists m',
    query.wrap (JObject m) = Ok (JExpr (JObject [("object", JObject m')]))
    /\ object.keys m' = object.keys m
    /\ (forall k v, In (k, v) m -> query.wrap v = Ok (object.get m' k))
    /\ (forall tag arg rest, tag <> "object" ->
          Expr.toJSON (JExpr (JObject [("object", JObject m')]))
          <> Expr.toJSON (JExpr (JObject ((tag, arg) :: rest)))).
Proof.
  intros Hwf _ Hcf. pose proof (callable_free_accepted _ Hcf) as Ha.
  destruct (wrap_into_app m [] Hwf) as (ws & Hws & Hall).
  - intros k _. apply not_elem_of_nil.
  - intros k v Hin. rewrite accepted_is_Ok.
    apply (accepted_value m k v Ha Hin).
  - exists ws. rewrite wrap_object, Hws. simpl. repeat split.
    + apply (wrapped_keys _ _ Hall).
    + intros k v Hin. apply (wrapped_get m ws k v Hwf Hall Hin).
    + intros tag arg rest Htag [= Heq]. congruence.
Qed.

Lemma wrap_escapes_object_witness :
  exists m',
    query.wrap (JObject [("a", JNum 1); ("add", JArray [JNum 1; JNum 2])])
    = Ok (JExpr (JObject [("object", JObject m')]))
    /\ object.keys m' = ["a"; "add"].
Proof.
  assert (Hwf : object.wf [("a", JNum 1); ("add", JArray [JNum 1; JNum 2])]).
  { unfold object.wf. simpl. apply NoDup_cons. split.
    - intros Hin. apply list_elem_of_singleton in Hin. discriminate.
    - apply NoDup_singleton. }
  destruct (wrap_escapes_object
              [("a", JNum 1); ("add", JArray [JNum 1; JNum 2])] Hwf
              eq_refl eq_refl) as (m' & Hw & Hk & _).
  exists m'. split; [exact Hw | exact Hk].
Defined.

(** C2, as it is stated, fails on an object holding a callable without
    parameters: [wrap] raises [InvalidValue] and returns no
    expression. *)
Lemma wrap_object_counterexample :
  object.wf [("f", JFunction [] JUndefined)]
  /\ query.wrap (JObject [("f", JFunction [] JUndefined)])
     = Throw (errors.InvalidValue
                "Provided Function must take at least 1 argument.")
  /\ ~ exists e, query.wrap (JObject [("f", JFunction [] JUndefined)]) = Ok e.
Proof.
  split; [|split].
  - apply NoDup_singleton.
  - reflexivity.
  - intros [e He]. discriminate.
Qed.

(** ** Argument counts *)

Lemma arity_Ok_iff (min max : option nat) (len : nat) :
  arity.arity min max len = Ok tt <-> arity.within min max len.
Proof.
  unfold arity.arity, arity.within.
  destruct min as [lo|], max as [hi|]; simpl.
  - destruct (Nat.ltb_spec len lo), (Nat.ltb_spec hi len); simpl; split;
      try discriminate; try reflexivity.
    all: try (intros [Hlo Hhi]; specialize (Hlo _ eq_refl);
              specialize (Hhi _ eq_refl); lia).
    intros _. split; intros ? [= <-]; lia.
  - destruct (Nat.ltb_spec len lo); simpl; split;
      try discriminate; try reflexivity.
    + intros [Hlo _]. specialize (Hlo _ eq_refl). lia.
    + intros _. split; [intros ? [= <-]; lia | discriminate].
  - destruct (Nat.ltb_spec hi len); simpl; split;
      try discriminate; try reflexivity.
    + intros [_ Hhi]. specialize (Hhi _ eq_refl). lia.
    + intros _. split; [discriminate | intros ? [= <-]; lia].
  - split; [|reflexivity]. intros _. split; discriminate.
Qed.

Lemma arity_cases (min max : option nat) (len : nat) :
  arity.arity min max len = Ok tt \/
  arity.arity min max len = Throw (errors.InvalidArity min max len).
Proof. unfold arity.arity. destruct (_ || _); auto. Qed.

Lemma arity_Throw_iff (min max : option nat) (len : nat) :
  arity.arity min max len = Throw (errors.InvalidArity min max len)
  <-> ~ arity.within min max len.
Proof.
  pose proof (arity_Ok_iff min max len) as Hok.
  destruct (arity_cases min max len) as [H|H]; rewrite H; split.
  - discriminate.
  - intros Hn. exfalso. apply Hn, Hok, H.
  - intros _ Hw. apply Hok in Hw. congruence.
  - reflexivity.
Qed.

(** A constructor that checks its count and then builds its expression
    by wrapping: outside the bounds it throws the [InvalidArity] of the
    check, within them it throws no [InvalidArity]. *)
Lemma checked_constructor (min max : option nat) (len : nat)
      (build : result JsValue) :
  (forall e, build = Throw e -> errors.name e = "InvalidValue") ->
  ((do _u <- arity.arity min max len; build)
   = Throw (errors.InvalidArity min max len)
   <-> ~ arity.within min max len)
  /\ (arity.within min max len ->
      forall e, (do _u <- arity.arity min max len; build) = Throw e ->
                errors.name e = "InvalidValue").
Proof.
  intros Hbuild.
  pose proof (arity_Ok_iff min max len) as Hok.
  pose proof (arity_Throw_iff min max len) as Hthrow.
  destruct (arity_cases min max len) as [H|H]; rewrite H.
  - split.
    + split.
      * intros Hb. apply Hbuild in Hb. discriminate.
      * intros Hn. exfalso. apply Hn, Hok, H.
    + intros _ e He. apply (Hbuild e He).
  - split.
    + split; [intros _; apply Hthrow, H | reflexivity].
    + intros Hw. apply Hok in Hw. congruence.
Qed.

Lemma wrap_raises_name (x : JsValue) (e : errors.Error) :
  query.wrap x = Throw e -> errors.name e = "InvalidValue".
Proof. intros H. now rewrite (wrap_raises_InvalidValue x e H). Qed.

Lemma _lambdaExpr_raises (var_name expr : JsValue) (e : errors.Error) :
  query._lambdaExpr var_name expr = Throw e -> errors.name e = "InvalidValue".
Proof.
  unfold query._lambdaExpr.
  destruct (query.wrap var_name) eqn:H1; [|intros [= <-]; eapply wrap_raises_name; eauto].
  destruct (query.wrap expr) eqn:H2; [discriminate|].
  intros [= <-]. eapply wrap_raises_name; eauto.
Qed.

(** C7.  A call whose argument count is outside the declared bounds
    throws [InvalidArity] carrying the declared lower bound, the declared
    upper bound and the actual count, and a call within the bounds throws
    no [InvalidArity]: for the check itself, for the four forms the
    constructors use ([null] stands for the bound a form leaves open),
    and for the constructors [Lambda], [Do] and the variadic ones on
    every list of arguments. *)
Theorem arity_enforced (min max : option nat) (args : list JsValue) :
  let len := length args in
  (arity.arity min max len = Ok tt <-> arity.within min max len)
  /\ (arity.arity min max len = Throw (errors.InvalidArity min max len)
      <-> ~ arity.within min max len)
  /\ (forall n, arity.exact n len = arity.arity (Some n) (Some n) len)
  /\ (forall n, arity.min n len = arity.arity (Some n) None len)
  /\ (forall n, arity.max n len = arity.arity None (Some n) len)
  /\ (forall lo hi,
        arity.between lo hi len = arity.arity (Some lo) (Some hi) len)
  /\ (query.Lambda args = Throw (errors.InvalidArity (Some 1) (Some 2) len)
      <-> ~ arity.within (Some 1) (Some 2) len)
  /\ (arity.within (Some 1) (Some 2) len ->
      forall e, query.Lambda args = Throw e -> errors.name e = "InvalidValue")
  /\ (forall tag,
        (query.variadic tag args = Throw (errors.InvalidArity (Some 1) None len)
         <-> ~ arity.within (Some 1) None len)
        /\ (arity.within (Some 1) None len ->
            forall e, query.variadic tag args = Throw e ->
                      errors.name e = "InvalidValue"))
  /\ (query.Do args = Throw (errors.InvalidArity (Some 1) None len)
      <-> ~ arity.within (Some 1) None len)
  /\ (arity.within (Some 1) None len ->
      forall e, query.Do args = Throw e -> errors.name e = "InvalidValue").
Proof.
  intros len.
  split; [apply arity_Ok_iff|]. split; [apply arity_Throw_iff|].
  do 4 (split; [reflexivity|]).
  assert (HL : forall e,
            match args with
            | [value] =>
                match value with
                | JFunction vars returns => query._lambdaFunc vars returns
                | _ =>
                    if instanceof_Expr value then Ok value
                    else Throw (errors.InvalidValue
                      "Lambda function takes either a Function or an Expr.")
                end
            | [var_name; expr] => query._lambdaExpr var_name expr
            | _ => Ok JUndefined
            end = Throw e -> errors.name e = "InvalidValue").
  { intros e. destruct args as [|v [|v' [|v'' t]]]; try discriminate.
    - destruct v; simpl; try (intros [= <-]; reflexivity); try discriminate.
      unfold query._lambdaFunc. destruct params as [|p [|p' ps]].
      + intros [= <-]. reflexivity.
      + apply _lambdaExpr_raises.
      + apply _lambdaExpr_raises.
    - apply _lambdaExpr_raises. }
  pose proof (checked_constructor (Some 1) (Some 2) len _ HL) as [L1 L2].
  split; [exact L1|]. split; [exact L2|]. split; [|].
  - intros tag.
    apply (checked_constructor (Some 1) None len
             (do w <- query.wrap (query.varargs args);
              Ok (JExpr (JObject [(tag, w)])))).
    intros e. destruct (query.wrap (query.varargs args)) eqn:Hw;
      [discriminate|]. intros [= <-]. eapply wrap_raises_name; eauto.
  - apply (checked_constructor (Some 1) None len
             (do w <- query.wrap (JArray args);
              Ok (JExpr (JObject [("do", w)])))).
    intros e. destruct (query.wrap (JArray args)) eqn:Hw;
      [discriminate|]. intros [= <-]. eapply wrap_raises_name; eauto.
Qed.

(** ** [Expr.toString]: the bound on its recursion *)

Section each_facts.
Context {A : Type}.
Implicit Types f g : A -> option (result string).

Lemma each_mono f g (l : list A) r :
  (forall x r', In x l -> f x = Some r' -> g x = Some r') ->
  Expr.each f l = Some r -> Expr.each g l = Some r.
Proof.
  revert r. induction l as [|x t IH]; simpl; intros r Hfg; [auto|].
  destruct (f x) as [[s|e]|] eqn:Hfx; try discriminate.
  - rewrite (Hfg x _ (or_introl eq_refl) Hfx).
    destruct (Expr.each f t) as [rt|] eqn:Ht; [|discriminate].
    rewrite (IH rt); auto.
  - rewrite (Hfg x _ (or_introl eq_refl) Hfx). auto.
Qed.

Lemma each_total f (l : list A) :
  (forall x, In x l -> exists r, f x = Some r) ->
  exists r, Expr.each f l = Some r.
Proof.
  induction l as [|x t IH]; simpl; intros Hf; [eauto|].
  destruct (Hf x (or_introl eq_refl)) as [[s|e] ->]; [|eauto].
  destruct IH as [[ss|e] ->]; eauto.
Qed.
End each_facts.

Lemma in_indexed {A} (f : A -> JsValue) (l : list A) (kv : string * JsValue) :
  In kv (indexed f l) -> exists x, In x l /\ snd kv = f x.
Proof.
  unfold indexed. intros Hin. apply in_map_iff in Hin as ([i x] & <- & Hin).
  apply in_combine_r in Hin. eauto.
Qed.

Lemma height_pos (x : JsValue) : 1 <= Expr.height x.
Proof.
  destruct x; simpl; try lia.
  destruct r; simpl; lia.
Qed.

Lemma height_item (items : list JsValue) (x : JsValue) :
  In x items -> Expr.height x < Expr.height (JArray items).
Proof.
  simpl. induction items as [|y t IH]; simpl; [tauto|].
  intros [->|Hin]; [lia|]. specialize (IH Hin). lia.
Qed.

Lemma height_prop (props : Props) (kv : string * JsValue) :
  In kv props -> Expr.height (snd kv) < Expr.height (JObject props).
Proof.
  simpl. induction props as [|y t IH]; simpl; [tauto|].
  intros [->|Hin]; [lia|]. specialize (IH Hin). lia.
Qed.

Lemma height_raw (x : JsValue) :
  Expr.height (if instanceof_Expr x then raw x else x) <= Expr.height x.
Proof.
  destruct x; simpl; try lia.
  destruct r; simpl; lia.
Qed.

(** The own properties of a value are no deeper than the value, and less
    deep unless the value is a string. *)
Lemma height_own_props (x : JsValue) (props : Props) (kv : string * JsValue) :
  own_props x = Ok props -> In kv props ->
  Expr.height (snd kv) <= Expr.height x
  /\ ((forall s, x <> JStr s) -> Expr.height (snd kv) < Expr.height x).
Proof.
  destruct x as [ | | b | n | s | d | ps ret | items | bs | bs | ops
                | e | r | v | s | s | bs | v ];
    simpl; intros [= <-] Hin;
    try (simpl in Hin; tauto);
    try (destruct Hin as [<-|[<-|[]]]; simpl; split; intros; lia).
  - apply in_indexed in Hin as (c & _ & ->). simpl. split; [lia|].
    intros Hs. now destruct (Hs s).
  - apply in_indexed in Hin as (v & Hin & ->).
    pose proof (height_item items v Hin) as Hlt. simpl in Hlt.
    simpl. split; intros; lia.
  - apply in_indexed in Hin as (b & _ & ->). simpl. split; intros; lia.
  - pose proof (height_prop ops kv Hin) as Hlt. simpl in Hlt.
    simpl. split; intros; lia.
  - destruct Hin as [<-|[]]. simpl. split; intros; lia.
  - destruct r as [i c d].
    destruct Hin as [<-|[<-|[]]]; simpl; split; intros;
      destruct c, d; simpl; lia.
Qed.

Lemma mapping_mono self self' (x : JsValue) r :
  (forall y c r', self y c = Some r' -> self' y c = Some r') ->
  Expr.toString_mapping self x = Some r ->
  Expr.toString_mapping self' x = Some r.
Proof.
  intros Hs. unfold Expr.toString_mapping.
  destruct (own_props x) as [[|[fn v0] props]|e]; auto.
  destruct (String.eqb fn "object").
  - destruct (own_props _) as [fields|e]; auto.
    destruct (Expr.each _ fields) as [rf|] eqn:Hf; [|discriminate].
    erewrite each_mono; [intros H; exact H | | exact Hf].
    intros kv r' _. simpl.
    destruct (self (snd kv) None) as [rk|] eqn:Hk; [|discriminate].
    now rewrite (Hs _ _ _ Hk).
  - destruct (Expr.function_name fn) as [name|e]; auto.
    destruct (Expr.each _ (_ :: props)) as [rf|] eqn:Hf; [|discriminate].
    erewrite each_mono; [intros H; exact H | | exact Hf].
    intros kv r' _. apply Hs.
Qed.

Lemma body_mono self self' (x : JsValue) (c : option string) r :
  (forall y c' r', self y c' = Some r' -> self' y c' = Some r') ->
  Expr.toString_body self x c = Some r ->
  Expr.toString_body self' x c = Some r.
Proof.
  intros Hs. unfold Expr.toString_body.
  destruct (if instanceof_Expr x then raw x else x) eqn:Hu;
    try exact (fun H => H); try apply (mapping_mono _ _ _ _ Hs).
  destruct (Expr.each _ items) as [rf|] eqn:Hf; [|discriminate].
  erewrite each_mono; [intros H; exact H | | exact Hf].
  intros y r' _. apply Hs.
Qed.

Lemma mapping_total self (x : JsValue) (n : nat) :
  (forall y c, Expr.height y <= n -> exists r, self y c = Some r) ->
  Expr.height x <= S n -> (forall s, x <> JStr s) ->
  exists r, Expr.toString_mapping self x = Some r.
Proof.
  intros Hs Hx Hstr. unfold Expr.toString_mapping.
  destruct (own_props x) as [[|[fn v0] props]|e] eqn:Hp; eauto.
  assert (Hchild : forall kv, In kv ((fn, v0) :: props) ->
            Expr.height (snd kv) <= n).
  { intros kv Hin. destruct (height_own_props _ _ _ Hp Hin) as [_ Hlt].
    specialize (Hlt Hstr). lia. }
  destruct (String.eqb fn "object") eqn:Hfn.
  - apply String.eqb_eq in Hfn as ->. simpl object.get.
    destruct (own_props v0) as [fields|e] eqn:Hf; eauto.
    destruct (each_total
                (fun kv => match self (snd kv) None with
                           | Some (Ok s) => Some (Ok (fst kv +:+ ": " +:+ s))
                           | other => other
                           end) fields) as [[ss|e] ->]; eauto.
    intros kv Hin.
    destruct (Hs (snd kv) None) as [[s|e] ->]; eauto.
    destruct (height_own_props _ _ _ Hf Hin) as [Hle _].
    specialize (Hchild ("object", v0) (or_introl eq_refl)).
    simpl in Hchild. lia.
  - destruct (Expr.function_name fn) as [name|e]; eauto.
    destruct (each_total (fun kv => self (snd kv) (Some name))
                         ((fn, v0) :: props)) as [[ss|e] ->]; eauto.
Qed.

Lemma body_total self (x : JsValue) (c : option string) (n : nat) :
  (forall y c', Expr.height y <= n -> exists r, self y c' = Some r) ->
  Expr.height x <= S n ->
  exists r, Expr.toString_body self x c = Some r.
Proof.
  intros Hs Hx. unfold Expr.toString_body.
  pose proof (height_raw x) as Hu.
  destruct (if instanceof_Expr x then raw x else x) eqn:Eu; eauto;
    try (apply (mapping_total self _ n Hs); [lia | discriminate]).
  destruct (each_total (fun item => self item None) items) as [[ss|e] ->];
    eauto.
  intros y Hin. apply Hs. pose proof (height_item items y Hin). lia.
Qed.

Lemma toString_fuel_total (n : nat) (x : JsValue) (c : option string) :
  Expr.height x <= n -> exists r, Expr.toString_fuel n x c = Some r.
Proof.
  revert x c. induction n as [|n IH]; intros x c Hx.
  - pose proof (height_pos x). lia.
  - simpl. apply (body_total _ _ _ n); auto.
Qed.

Lemma toString_fuel_S (n : nat) (x : JsValue) (c : option string) r :
  Expr.toString_fuel n x c = Some r -> Expr.toString_fuel (S n) x c = Some r.
Proof.
  revert x c r. induction n as [|n IH]; intros x c r; [discriminate|].
  intros H. change (Expr.toString_body (Expr.toString_fuel (S n)) x c = Some r).
  apply (body_mono (Expr.toString_fuel n)); [exact IH | exact H].
Qed.

Lemma toString_fuel_mono (n m : nat) (x : JsValue) (c : option string) r :
  n <= m ->
  Expr.toString_fuel n x c = Some r -> Expr.toString_fuel m x c = Some r.
Proof.
  induction 1 as [|m _ IH]; [auto|]. intros H. apply toString_fuel_S. auto.
Qed.

(** Fuel equal to the depth of the value is enough, and more changes
    nothing: [toString] is the function the recursion computes. *)
Lemma toString_fuel_enough (n : nat) (x : JsValue) (c : option string) :
  Expr.height x <= n -> Expr.toString_fuel n x c = Some (Expr.toString x c).
Proof.
  intros Hn. unfold Expr.toString.
  destruct (toString_fuel_total (Expr.height x) x c (le_n _)) as [r Hr].
  rewrite Hr. apply (toString_fuel_mono _ _ _ _ _ Hn Hr).
Qed.

Lemma toString_fuel_sound (n : nat) (x : JsValue) (c : option string) r :
  Expr.toString_fuel n x c = Some r -> Expr.toString x c = r.
Proof.
  intros H.
  pose proof (toString_fuel_mono n (Nat.max n (Expr.height x)) x c r
                (Nat.le_max_l _ _) H) as H1.
  rewrite toString_fuel_enough in H1 by apply Nat.le_max_r. congruence.
Qed.

(** [toString] satisfies the equation of the source, its recursive calls
    being calls of [toString]. *)
Lemma toString_unfold (x : JsValue) (c : option string) :
  Expr.toString_body (fun y c' => Some (Expr.toString y c')) x c
  = Some (Expr.toString x c).
Proof.
  pose proof (height_pos x) as Hpos.
  destruct (Expr.height x) as [|n] eqn:Hh; [lia|].
  pose proof (toString_fuel_enough (S n) x c) as H.
  rewrite Hh in H. specialize (H (le_n _)). simpl in H.
  apply (body_mono (Expr.toString_fuel n)); [|exact H].
  intros y c' r' Hy. f_equal. apply (toString_fuel_sound _ _ _ _ Hy).
Qed.

(** ** [Expr.toString]: sequences under a variadic caller *)

Lemma each_toString (items : list JsValue) :
  Expr.each (fun item => Some (Expr.toString item None)) items
  = Some (render_items items).
Proof.
  induction items as [|x t IH]; simpl; [reflexivity|].
  destruct (Expr.toString x None); [|reflexivity].
  rewrite IH. destruct (render_items t); reflexivity.
Qed.

(** An array prints as its printed elements joined by commas, between
    brackets unless the caller is one of [varArgsFunctions]. *)
Lemma toString_array (items : list JsValue) (c : option string) :
  Expr.toString (JExpr (JArray items)) c
  = do strs <- render_items items;
    Ok (if Expr.includes Expr.varArgsFunctions c
        then str.join ", " strs
        else "[" +:+ str.join ", " strs +:+ "]").
Proof.
  pose proof (toString_unfold (JExpr (JArray items)) c) as H.
  unfold Expr.toString_body in H. simpl instanceof_Expr in H.
  simpl raw in H. cbv iota beta in H. rewrite each_toString in H.
  destruct (render_items items); injection H as <-; reflexivity.
Qed.

(** A mapping of one key prints as the call of the function its key
    names. *)
Lemma toString_call (tag name : string) (w : JsValue) :
  String.eqb tag "object" = false ->
  Expr.function_name tag = Ok name ->
  Expr.toString (JExpr (JObject [(tag, w)])) None
  = do rw <- Expr.toString w (Some name);
    Ok (name +:+ "(" +:+ rw +:+ ")").
Proof.
  intros Htag Hname.
  pose proof (toString_unfold (JExpr (JObject [(tag, w)])) None) as H.
  unfold Expr.toString_body, Expr.toString_mapping in H.
  simpl instanceof_Expr in H. simpl raw in H. cbv iota beta in H.
  simpl own_props in H. cbv iota beta in H.
  rewrite Htag, Hname in H. simpl Expr.each in H.
  destruct (Expr.toString w (Some name)); injection H as <-; reflexivity.
Qed.

Lemma variadic_tags_names (tag : string) :
  In tag variadic_tags ->
  exists name, Expr.function_name tag = Ok name
               /\ Expr.includes Expr.varArgsFunctions (Some name) = true
               /\ String.eqb tag "object" = false.
Proof.
  unfold variadic_tags. simpl.
  intros H.
  repeat (destruct H as [<-|H];
          [eexists; split; [reflexivity | split; reflexivity] |]).
  contradiction.
Qed.

(** The wrapped pair, printed under [c], against the two printed
    elements. *)
Lemma render_pair (a b : JsValue) (c : option string) :
  agree (render_wrapped (JArray [a; b]) c)
        (do s <- joined a b;
         Ok (if Expr.includes Expr.varArgsFunctions c then s
             else "[" +:+ s +:+ "]")).
Proof.
  unfold render_wrapped, joined, render_wrapped.
  rewrite wrap_array. simpl query.wrap_each.
  destruct (query.wrap a) as [wa|ea]; simpl.
  2:{ exact I. }
  destruct (query.wrap b) as [wb|eb]; simpl.
  2:{ destruct (Expr.toString wa None); exact I. }
  rewrite toString_array. simpl render_items.
  destruct (Expr.toString wa None) as [ra|ea]; simpl; [|exact I].
  destruct (Expr.toString wb None) as [rb|eb]; simpl; [|exact I].
  reflexivity.
Qed.

Lemma agree_Ok {A} (r : result A) (x : A) : agree r (Ok x) -> r = Ok x.
Proof. destruct r; simpl; [now intros ->|contradiction]. Qed.

Lemma render_string (s : string) :
  render_wrapped (JStr s) None = Ok (str.quote s).
Proof. reflexivity. Qed.

(** The wrapped pair and its call, where both elements are wrapped and
    printed. *)
Lemma render_pair_Ok (a b : JsValue) (ra rb : string) :
  render_wrapped a None = Ok ra ->
  render_wrapped b None = Ok rb ->
  (forall tag, In tag variadic_tags ->
     exists name,
       Expr.function_name tag = Ok name
       /\ render_wrapped (JArray [a; b]) (Some name)
          = Ok (ra +:+ ", " +:+ rb)
       /\ (do w <- query.wrap (JArray [a; b]);
           Expr.toString (JExpr (JObject [(tag, w)])) None)
          = Ok (name +:+ "(" +:+ (ra +:+ ", " +:+ rb) +:+ ")"))
  /\ (forall caller,
        Expr.includes Expr.varArgsFunctions caller = false ->
        render_wrapped (JArray [a; b]) caller
        = Ok ("[" +:+ (ra +:+ ", " +:+ rb) +:+ "]")).
Proof.
  intros Ha Hb.
  assert (Hj : joined a b = Ok (ra +:+ ", " +:+ rb)).
  { unfold joined. now rewrite Ha, Hb. }
  split.
  - intros tag Htag.
    destruct (variadic_tags_names tag Htag) as (name & Hname & Hinc & Hobj).
    exists name. split; [exact Hname|].
    pose proof (render_pair a b (Some name)) as Hpair.
    rewrite Hinc, Hj in Hpair. apply agree_Ok in Hpair.
    split; [exact Hpair|].
    unfold render_wrapped in Hpair.
    destruct (query.wrap (JArray [a; b])) as [w|e]; [|discriminate].
    rewrite (toString_call tag name w Hobj Hname), Hpair. reflexivity.
  - intros caller Hc.
    pose proof (render_pair a b caller) as Hpair.
    rewrite Hc, Hj in Hpair. now apply agree_Ok in Hpair.
Qed.

(** C6.  For all values [a] and [b] and every tag of the variadic set,
    the wrapped sequence of [a] and [b] printed as the argument of that
    caller is the printed [wrap a], a comma and a space, and the printed
    [wrap b], without brackets, also inside the printed call; under a
    caller outside [varArgsFunctions], or none, the same text stands
    between brackets.  Where a wrapping or a printing raises, both sides
    raise.  Where [a] and [b] are wrapped and printed, as the texts [ra]
    and [rb], the sequence is printed, as the text these make: with the
    comma between them, inside the call, and between brackets.  Two
    strings are always printed so, each between its double quotes. *)
Theorem varargs_rendering (a b : JsValue) :
  (forall tag, In tag variadic_tags ->
     exists name,
       Expr.function_name tag = Ok name
       /\ agree (render_wrapped (JArray [a; b]) (Some name)) (joined a b)
       /\ agree (do w <- query.wrap (JArray [a; b]);
                 Expr.toString (JExpr (JObject [(tag, w)])) None)
                (do s <- joined a b; Ok (name +:+ "(" +:+ s +:+ ")")))
  /\ (forall caller,
        Expr.includes Expr.varArgsFunctions caller = false ->
        agree (render_wrapped (JArray [a; b]) caller)
              (do s <- joined a b; Ok ("[" +:+ s +:+ "]")))
  /\ (forall ra rb,
        render_wrapped a None = Ok ra ->
        render_wrapped b None = Ok rb ->
        (forall tag, In tag variadic_tags ->
           exists name,
             Expr.function_name tag = Ok name
             /\ render_wrapped (JArray [a; b]) (Some name)
                = Ok (ra +:+ ", " +:+ rb)
             /\ (do w <- query.wrap (JArray [a; b]);
                 Expr.toString (JExpr (JObject [(tag, w)])) None)
                = Ok (name +:+ "(" +:+ (ra +:+ ", " +:+ rb) +:+ ")"))
        /\ (forall caller,
              Expr.includes Expr.varArgsFunctions caller = false ->
              render_wrapped (JArray [a; b]) caller
              = Ok ("[" +:+ (ra +:+ ", " +:+ rb) +:+ "]")))
  /\ (forall s t,
        (forall tag, In tag variadic_tags ->
           exists name,
             Expr.function_name tag = Ok name
             /\ render_wrapped (JArray [JStr s; JStr t]) (Some name)
                = Ok (str.quote s +:+ ", " +:+ str.quote t)
             /\ (do w <- query.wrap (JArray [JStr s; JStr t]);
                 Expr.toString (JExpr (JObject [(tag, w)])) None)
                = Ok (name +:+ "(" +:+ (str.quote s +:+ ", " +:+ str.quote t)
                      +:+ ")"))
        /\ (forall caller,
              Expr.includes Expr.varArgsFunctions caller = false ->
              render_wrapped (JArray [JStr s; JStr t]) caller
              = Ok ("[" +:+ (str.quote s +:+ ", " +:+ str.quote t) +:+ "]"))).
Proof.
  split; [|split; [|split]].
  - intros tag Htag.
    destruct (variadic_tags_names tag Htag) as (name & Hname & Hinc & Hobj).
    exists name. split; [exact Hname|].
    pose proof (render_pair a b (Some name)) as Hpair. rewrite Hinc in Hpair.
    assert (Hj : agree (render_wrapped (JArray [a; b]) (Some name))
                       (joined a b)).
    { destruct (joined a b); exact Hpair. }
    split; [exact Hj|].
    unfold render_wrapped in Hj.
    destruct (query.wrap (JArray [a; b])) as [w|e]; simpl in *.
    + rewrite (toString_call tag name w Hobj Hname).
      destruct (Expr.toString w (Some name)), (joined a b); simpl in *;
        try contradiction; try exact I. now subst.
    + destruct (joined a b); simpl in *; [contradiction | exact I].
  - intros caller Hc.
    pose proof (render_pair a b caller) as Hpair. rewrite Hc in Hpair.
    exact Hpair.
  - intros ra rb Ha Hb. apply (render_pair_Ok a b ra rb Ha Hb).
  - intros s t.
    apply (render_pair_Ok (JStr s) (JStr t) _ _
                          (render_string s) (render_string t)).
Qed.

(** Both sides do return on ordinary values: the call of [Union] on the
    variables x and y prints as in the tests of the driver. *)
Lemma varargs_rendering_example :
  let x := JExpr (JObject [("var", JStr "x")]) in
  let y := JExpr (JObject [("var", JStr "y")]) in
  joined x y = Ok ("Var(" +:+ str.quote "x" +:+ "), Var("
                   +:+ str.quote "y" +:+ ")")
  /\ render_wrapped (JArray [x; y]) (Some "Union") = joined x y
  /\ (do u <- query.variadic "union" [x; y]; Expr.toString u None)
     = Ok ("Union(Var(" +:+ str.quote "x" +:+ "), Var("
           +:+ str.quote "y" +:+ "))")
  /\ render_wrapped (JArray [x; y]) (Some "Lambda")
     = Ok ("[Var(" +:+ str.quote "x" +:+ "), Var(" +:+ str.quote "y" +:+ ")]").
Proof. repeat split. Qed.

Lemma varargs_rendering_witness :
  let x := JExpr (JObject [("var", JStr "x")]) in
  let d := JObject [("a", JNum 1)] in
  render_wrapped (JArray [x; d]) (Some "Union")
  = Ok ("Var(" +:+ str.quote "x" +:+ "), {a: 1}")
  /\ (do w <- query.wrap (JArray [x; d]);
      Expr.toString (JExpr (JObject [("union", w)])) None)
     = Ok ("Union(Var(" +:+ str.quote "x" +:+ "), {a: 1})")
  /\ render_wrapped (JArray [x; d]) (Some "Lambda")
     = Ok ("[Var(" +:+ str.quote "x" +:+ "), {a: 1}]").
Proof.
  intros x d.
  destruct (varargs_rendering x d) as (_ & _ & H & _).
  destruct (H ("Var(" +:+ str.quote "x" +:+ ")") "{a: 1}" eq_refl eq_refl)
    as [Htags Hcaller].
  destruct (Htags "union") as (name & Hname & Hr & Hc); [simpl; auto|].
  injection Hname as <-.
  split; [exact Hr|]. split; [exact Hc|].
  apply (Hcaller (Some "Lambda")). reflexivity.
Defined.

(** ** The page helper: what a traversal leaves alone *)

Import PageHelper.

Lemma reads_only_ret {A} (a : A) : reads_only (ret a).
Proof. intros w. auto. Qed.

Lemma reads_only_bind {A B} (m : M A) (k : A -> M B) :
  reads_only m -> (forall a, reads_only (k a)) -> reads_only (bind m k).
Proof.
  intros Hm Hk w. unfold bind. specialize (Hm w).
  destruct (m w) as [[a| | |] w1]; simpl in Hm; try exact Hm.
  destruct (Hk a w1) as [H1 H2]. destruct Hm as [H3 H4].
  split; congruence.
Qed.

Lemma reads_only_lift {A} (r : result A) : reads_only (lift r).
Proof. intros w. destruct r; simpl; auto. Qed.

Lemma reads_only_helper (self : nat) : reads_only (helper self).
Proof. intros w. unfold helper. destruct (helpers w !! self); auto. Qed.

Lemma reads_only_array (a : nat) : reads_only (array a).
Proof. intros w. unfold array. destruct (arrays w !! a); auto. Qed.

Lemma reads_only_callback (data : JsValue) : reads_only (callback data).
Proof. intros w. auto. Qed.

Lemma reads_only_client_query (q : JsValue) : reads_only (client_query q).
Proof.
  unfold client_query. apply reads_only_bind; [apply reads_only_lift|].
  intros q' w. destruct (replies w) as [|[page|e] rest]; auto.
Qed.

Lemma reads_only_retrieve (self : nat) (cursor : JsValue) (reverse : bool) :
  reads_only (_retrieveNextPage self cursor reverse).
Proof.
  unfold _retrieveNextPage.
  apply reads_only_bind; [apply reads_only_helper|]. intros h.
  apply reads_only_bind; [apply reads_only_array|]. intros fs.
  apply reads_only_bind; [apply reads_only_lift|]. intros q.
  apply reads_only_client_query.
Qed.

Lemma reads_only_consume (fuel self : nat) (reverse : bool) (page : Page) :
  reads_only (_consumePages fuel self reverse page).
Proof.
  revert page. induction fuel as [|fuel IH]; intros page; simpl;
    (apply reads_only_bind; [apply reads_only_callback|]); intros _;
    destruct (defined _); try apply reads_only_ret.
  - intros w. auto.
  - apply reads_only_bind; [apply reads_only_retrieve | exact IH].
Qed.

Lemma reads_only_each (fuel self : nat) :
  reads_only (each_upto fuel self) /\ reads_only (eachReverse_upto fuel self).
Proof.
  split; unfold each_upto, eachReverse_upto;
    (apply reads_only_bind; [apply reads_only_helper|]); intros h;
    (apply reads_only_bind; [apply reads_only_retrieve|]); intros page;
    apply reads_only_consume.
Qed.

(** C10.  A traversal, forward or backward, writes to no helper: at
    every bound on the number of pages, hence at every point of the
    traversal and at its end, the helpers, and so the [before] and
    [after] of the helper traversed, are what they were. *)
Theorem each_keeps_cursors (fuel self : nat) (w : World) :
  helpers (snd (each_upto fuel self w)) = helpers w
  /\ helpers (snd (eachReverse_upto fuel self w)) = helpers w
  /\ helpers (snd (each self w)) = helpers w
  /\ helpers (snd (eachReverse self w)) = helpers w
  /\ cursors (snd (each self w)) self = cursors w self
  /\ cursors (snd (eachReverse self w)) self = cursors w self.
Proof.
  pose proof (fun n => proj1 (proj1 (reads_only_each n self) w)) as He.
  pose proof (fun n => proj1 (proj2 (reads_only_each n self) w)) as Hr.
  unfold cursors, each, eachReverse.
  rewrite !He, !Hr. repeat split.
Qed.

(** ** The page helper: one request per page *)

Lemma wrap_instance (q : JsValue) :
  instanceof_Expr q = true -> query.wrap q = Ok q.
Proof. destruct q; simpl; intros H; try discriminate; reflexivity. Qed.

Lemma apply_all_instance (fs : list FaunaFunction) (q q' : JsValue) :
  instanceof_Expr q = true -> apply_all fs q = Ok q' ->
  instanceof_Expr q' = true.
Proof.
  revert q. induction fs as [|f t IH]; simpl; intros q Hq.
  - intros [= <-]. exact Hq.
  - destruct (call f q) as [q1|e] eqn:Hc; [|discriminate].
    apply IH. destruct f; simpl in Hc;
      unfold query.Map, query.Filter in Hc; simpl in Hc;
      destruct (query.wrap lambda); try discriminate;
      destruct (query.wrap q); try discriminate;
      injection Hc as <-; reflexivity.
Qed.

Lemma page_query_instance (h : Helper) (fs : list FaunaFunction)
      (cursor : JsValue) (reverse : bool) (q : JsValue) :
  page_query h fs cursor reverse = Ok q -> instanceof_Expr q = true.
Proof.
  unfold page_query.
  destruct (query.Paginate _ _) as [p|e] eqn:Hp; [|discriminate].
  apply apply_all_instance.
  unfold query.Paginate in Hp. simpl in Hp.
  destruct (query.wrap (set h)); [|discriminate].
  destruct (query.wrap_into _ _); [|discriminate].
  injection Hp as <-. reflexivity.
Qed.

Lemma page_query_cursors (h h' : Helper) (fs : list FaunaFunction)
      (cursor : JsValue) (reverse : bool) :
  set h' = set h -> params h' = params h ->
  page_query h' fs cursor reverse = page_query h fs cursor reverse.
Proof. unfold page_query. now intros -> ->. Qed.

(** [_retrieveNextPage] hands the client one query, the one built from
    the params, the cursor and the transforms, and takes one reply. *)
Lemma retrieve_Done (self : nat) (cursor : JsValue) (reverse : bool)
      (w w' : World) (page : Page) :
  _retrieveNextPage self cursor reverse w = (Done page, w') ->
  exists h fs q,
    helpers w !! self = Some h
    /\ arrays w !! _faunaFunctions h = Some fs
    /\ page_query h fs cursor reverse = Ok q
    /\ replies w = Resolve page :: replies w'
    /\ w' = mkWorld (helpers w) (arrays w) (requests w ++ [q])
                    (replies w') (seen w).
Proof.
  unfold _retrieveNextPage, bind, helper, array, lift, client_query, bind, lift.
  destruct (helpers w !! self) as [h|] eqn:Hh; [|discriminate].
  destruct (arrays w !! _faunaFunctions h) as [fs|] eqn:Hfs; [|discriminate].
  destruct (page_query h fs cursor reverse) as [q|e] eqn:Hq; [|discriminate].
  rewrite (wrap_instance q (page_query_instance _ _ _ _ _ Hq)).
  destruct (replies w) as [|[pg|e] rest] eqn:Hr; try discriminate.
  intros [= <- <-]. exists h, fs, q. simpl. auto.
Qed.

Lemma retrieve_fuel (self : nat) (cursor : JsValue) (reverse : bool)
      (w : World) :
  fst (_retrieveNextPage self cursor reverse w) <> OutOfFuel.
Proof.
  unfold _retrieveNextPage, bind, helper, array, lift, client_query, bind, lift.
  destruct (helpers w !! self) as [h|]; [|discriminate].
  destruct (arrays w !! _faunaFunctions h) as [fs|]; [|discriminate].
  destruct (page_query h fs cursor reverse) as [q|e]; [|discriminate].
  destruct (query.wrap q); [|discriminate].
  destruct (replies w) as [|[pg|e] rest]; discriminate.
Qed.

(** A traversal needs no more pages than the script has replies. *)
Lemma consume_completes (fuel self : nat) (reverse : bool) (page : Page)
      (w : World) :
  length (replies w) < fuel ->
  fst (_consumePages fuel self reverse page w) <> OutOfFuel.
Proof.
  revert page w. induction fuel as [|fuel IH]; intros page w Hlen; [lia|].
  simpl. unfold bind at 1. simpl.
  destruct (defined _); [|discriminate].
  unfold bind.
  destruct (_retrieveNextPage _ _ _ _) as [[next| | |] w1] eqn:Hr;
    try discriminate.
  - apply retrieve_Done in Hr as (h & fs & q & _ & _ & _ & Hrep & ->).
    apply IH. simpl in *. rewrite Hrep in Hlen. simpl in Hlen. lia.
  - pose proof (retrieve_fuel self
                  (if reverse then page_before page else page_after page)
                  reverse
                  (mkWorld (helpers w) (arrays w) (requests w) (replies w)
                           (seen w ++ [page_data page]))) as Hf.
    rewrite Hr in Hf. now destruct Hf.
Qed.

Lemma each_completes (self : nat) (w : World) :
  fst (each self w) <> OutOfFuel /\ fst (eachReverse self w) <> OutOfFuel.
Proof.
  split; unfold each, each_upto, eachReverse, eachReverse_upto, bind, helper;
    destruct (helpers w !! self) as [h|]; try discriminate.
  - destruct (_retrieveNextPage _ _ _ _) as [[page| | |] w1] eqn:Hr;
      try discriminate.
    + apply retrieve_Done in Hr as (h' & fs & q & _ & _ & _ & Hrep & ->).
      apply consume_completes. simpl. rewrite Hrep. simpl. lia.
    + pose proof (retrieve_fuel self (after h) false w) as Hf.
      rewrite Hr in Hf. now destruct Hf.
  - destruct (_retrieveNextPage _ _ _ _) as [[page| | |] w1] eqn:Hr;
      try discriminate.
    + apply retrieve_Done in Hr as (h' & fs & q & _ & _ & _ & Hrep & ->).
      apply consume_completes. simpl. rewrite Hrep. simpl. lia.
    + pose proof (retrieve_fuel self (before h) true w) as Hf.
      rewrite Hr in Hf. now destruct Hf.
Qed.

(** ** The page helper: [nextPage] *)

(** A call of [nextPage] that resolves has sent one query, built with the
    [after] cursor the helper held, has taken one reply, has overwritten
    the cursors this reply reports and returns its data. *)
Lemma nextPage_Done (self : nat) (w w' : World) (h : Helper)
      (fs : list FaunaFunction) (d : JsValue) :
  helpers w !! self = Some h ->
  arrays w !! _faunaFunctions h = Some fs ->
  nextPage self w = (Done d, w') ->
  exists page q,
    page_query h fs (after h) false = Ok q
    /\ replies w = Resolve page :: replies w'
    /\ requests w' = requests w ++ [q]
    /\ d = page_data page
    /\ helpers w' !! self = Some (adjusted h page)
    /\ arrays w' = arrays w.
Proof.
  intros Hh Hfs. unfold nextPage, bind at 1, helper. rewrite Hh.
  unfold bind at 1.
  destruct (_retrieveNextPage self (after h) false w) as [[page| | |] w1] eqn:Hr;
    try discriminate.
  apply retrieve_Done in Hr as (h0 & fs0 & q & Hh0 & Hfs0 & Hq & Hrep & ->).
  rewrite Hh in Hh0. injection Hh0 as <-.
  rewrite Hfs in Hfs0. injection Hfs0 as <-.
  unfold _adjustCursors, adjusted, assign_after, assign_before, bind, helper,
    put_helper, lift, ret.
  destruct h as [hset hparams hbefore hafter hfns hw]. simpl in *.
  destruct (defined (page_after page)) eqn:Ha,
           (defined (page_before page)) eqn:Hb;
    simpl; rewrite ?Hh; simpl; destruct hw; simpl;
    rewrite ?lookup_insert_eq; simpl; try discriminate;
    intros [= <- <-]; simpl; exists page, q;
    rewrite ?lookup_insert_eq, ?Hh, ?Ha, ?Hb; auto 10.
Qed.

Lemma reported_snoc (field : Page -> JsValue) (pages : list Page)
      (page : Page) (init : JsValue) :
  reported field (page :: pages) init
  = reported field pages (if defined (field page) then field page else init).
Proof. reflexivity. Qed.

(** C4, as the code has it.  After [n] calls of [nextPage] that all
    resolved, the helper holds the last [after] cursor that one of the
    [n] replies reported, or the one it held before if none did, and
    likewise for [before]; the calls took the first [n] replies, returned
    their data, and sent one query each, built with the [after] cursor
    held at the time of the call. *)
Theorem nextPages_cursors (n self : nat) (w w' : World) (h : Helper)
        (fs : list FaunaFunction) (datas : list JsValue) :
  helpers w !! self = Some h ->
  arrays w !! _faunaFunctions h = Some fs ->
  nextPages n self w = (Done datas, w') ->
  exists pages h' qs,
    length pages = n
    /\ replies w = List.map Resolve pages ++ replies w'
    /\ datas = List.map page_data pages
    /\ helpers w' !! self = Some h'
    /\ after h' = reported page_after pages (after h)
    /\ before h' = reported page_before pages (before h)
    /\ requests w' = requests w ++ qs
    /\ length qs = n
    /\ forall i q, nth_error qs i = Some q ->
         page_query h fs (reported page_after (firstn i pages) (after h))
                    false = Ok q.
Proof.
  revert w h datas. induction n as [|n IH]; intros w h datas Hh Hfs.
  - simpl. unfold ret. intros [= <- <-].
    exists [], h, []. simpl. rewrite app_nil_r.
    repeat split; auto. intros [|i] q; discriminate.
  - simpl. unfold bind at 1.
    destruct (nextPage self w) as [[d| | |] w1] eqn:Hn; try discriminate.
    destruct (nextPage_Done _ _ _ _ _ _ Hh Hfs Hn)
      as (page & q & Hq & Hrep & Hreq & -> & Hh1 & Harr).
    unfold bind at 1.
    destruct (nextPages n self w1) as [[ds| | |] w2] eqn:Hrest;
      try discriminate.
    unfold ret. intros [= <- <-].
    assert (Hfs1 : arrays w1 !! _faunaFunctions (adjusted h page) = Some fs)
      by (rewrite Harr; exact Hfs).
    destruct (IH w1 (adjusted h page) ds Hh1 Hfs1 Hrest)
      as (pages & h' & qs & Hlen & Hreps & -> & Hh' & Ha & Hb & Hreqs & Hqs
          & Hnth).
    exists (page :: pages), h', (q :: qs). simpl List.map. simpl length.
    rewrite !reported_snoc.
    repeat split; auto.
    + rewrite Hrep, Hreps. reflexivity.
    + rewrite Hreqs, Hreq, <- app_assoc. reflexivity.
    + intros [|i] q'; simpl.
      * intros [= <-]. exact Hq.
      * intros Hi. specialize (Hnth i q' Hi).
        rewrite (page_query_cursors h (adjusted h page)) in Hnth
          by reflexivity.
        exact Hnth.
Qed.

Lemma nextPages_cursors_witness :
  let p1 := mkPage (JArray [JNum 1]) JUndefined (JStr "A") in
  let p2 := mkPage (JArray [JNum 2]) JUndefined JUndefined in
  let w := snd (new (JStr "set") [] (script [Resolve p1; Resolve p2])) in
  exists pages h' qs,
    length pages = 2
    /\ replies w = List.map Resolve pages ++ replies (snd (nextPages 2 0 w))
    /\ [JArray [JNum 1]; JArray [JNum 2]] = List.map page_data pages
    /\ helpers (snd (nextPages 2 0 w)) !! 0 = Some h'
    /\ after h' = reported page_after pages JUndefined
    /\ before h' = reported page_before pages JUndefined
    /\ requests (snd (nextPages 2 0 w)) = requests w ++ qs
    /\ length qs = 2.
Proof.
  intros p1 p2 w.
  destruct (nextPages_cursors 2 0 w (snd (nextPages 2 0 w))
              (mkHelper (JStr "set") (Some []) JUndefined JUndefined 0 true)
              [] [JArray [JNum 1]; JArray [JNum 2]])
    as (pages & h' & qs & H1 & H2 & H3 & H4 & H5 & H6 & H7 & H8 & _).
  - reflexivity.
  - reflexivity.
  - vm_compute. reflexivity.
  - exists pages, h', qs. repeat split; assumption.
Defined.

(** C4, as it is stated, fails when the last reply reports no [after]
    cursor: after two calls that resolved, the helper still holds the
    cursor of the first reply, not the absent one of the second. *)
Lemma nextPages_counterexample :
  let p1 := mkPage (JArray [JNum 1]) JUndefined (JStr "A") in
  let p2 := mkPage (JArray [JNum 2]) JUndefined JUndefined in
  let w := snd (new (JStr "set") [] (script [Resolve p1; Resolve p2])) in
  fst (nextPages 2 0 w) = Done [page_data p1; page_data p2]
  /\ cursors (snd (nextPages 2 0 w)) 0 = Some (JUndefined, JStr "A")
  /\ page_after p2 = JUndefined
  /\ JStr "A" <> page_after p2.
Proof.
  intros p1 p2 w. split; [|split; [|split]].
  - vm_compute. reflexivity.
  - vm_compute. reflexivity.
  - reflexivity.
  - discriminate.
Qed.

(** ** The page helper: [map] and [filter] *)

(** [map] and [filter] make a new object, leave the object they are
    called on as it is, and push their transform onto the array this
    object holds: the new object holds the same array. *)
Lemma derive_shares (self : nat) (lambda : JsValue) (w : World) (h : Helper)
      (fs : list FaunaFunction) :
  helpers w !! self = Some h ->
  arrays w !! _faunaFunctions h = Some fs ->
  let rv := fresh (dom (helpers w)) in
  let copy := mkHelper (set h) None (before h) (after h)
                       (_faunaFunctions h) false in
  rv <> self
  /\ map self lambda w
     = (Done rv,
        mkWorld (<[rv := copy]> (helpers w))
                (<[_faunaFunctions h := fs ++ [MapFn lambda]]> (arrays w))
                (requests w) (replies w) (seen w))
  /\ filter self lambda w
     = (Done rv,
        mkWorld (<[rv := copy]> (helpers w))
                (<[_faunaFunctions h := fs ++ [FilterFn lambda]]> (arrays w))
                (requests w) (replies w) (seen w)).
Proof.
  intros Hh Hfs rv copy.
  assert (Hne : rv <> self).
  { intros Heq. pose proof (is_fresh (dom (helpers w))) as Hfresh.
    fold rv in Hfresh. rewrite Heq in Hfresh.
    apply Hfresh. apply elem_of_dom. rewrite Hh. eauto. }
  split; [exact Hne|].
  unfold map, filter, _clone, push, bind, helper, new_object, array,
    put_array, ret.
  rewrite Hh. simpl. fold rv. rewrite lookup_insert_eq. simpl.
  rewrite Hfs. simpl. split; reflexivity.
Qed.

(** C1.  [map] and [filter] return a new object and do not touch the
    fields of the one they are called on, but they change its transform
    chain: the derived helper holds the same array as the base, every
    transform pushed through one helper is in the chain of the others. *)
Theorem map_shares_transform_chain (set f g : JsValue) :
  let w0 := snd (new set [] empty) in
  let r1 := map 0 f w0 in
  let r2 := filter 0 g (snd r1) in
  helpers w0 !! 0
  = Some (mkHelper set (Some []) JUndefined JUndefined 0 true)
  /\ chain w0 0 = Some []
  /\ fst r1 = Done 1
  /\ helpers (snd r1) !! 0 = helpers w0 !! 0
  /\ chain (snd r1) 0 = Some [MapFn f]
  /\ fst r2 = Done 2
  /\ helpers (snd r2) !! 0 = helpers w0 !! 0
  /\ chain (snd r2) 0 = Some [MapFn f; FilterFn g]
  /\ chain (snd r2) 1 = Some [MapFn f; FilterFn g]
  /\ chain (snd r2) 2 = Some [MapFn f; FilterFn g].
Proof. repeat split. Qed.

(** ** The page helper: both cursors handed to the constructor *)

Lemma has_delete_other (o : Props) (k k' : string) :
  k <> k' -> object.has (object.delete o k') k = object.has o k.
Proof.
  intros Hne. induction o as [|[k1 v1] t IH]; simpl; [reflexivity|].
  destruct (String.eqb_spec k' k1) as [->|Hk1]; simpl.
  - rewrite IH. destruct (String.eqb_spec k k1); [contradiction|reflexivity].
  - now rewrite IH.
Qed.

Lemma get_delete_other (o : Props) (k k' : string) :
  k <> k' -> object.get (object.delete o k') k = object.get o k.
Proof.
  intros Hne. induction o as [|[k1 v1] t IH]; simpl; [reflexivity|].
  destruct (String.eqb_spec k' k1) as [->|Hk1]; simpl.
  - rewrite IH. destruct (String.eqb_spec k k1); [contradiction|reflexivity].
  - now rewrite IH.
Qed.

Lemma assign_app (target source : Props) :
  NoDup (object.keys target ++ object.keys source) ->
  object.assign target source = target ++ source.
Proof.
  unfold object.assign. revert target.
  induction source as [|[k v] t IH]; intros target Hnd; simpl.
  - now rewrite app_nil_r.
  - apply NoDup_app in Hnd as (Ht & Hdisj & Hs).
    simpl in Hs. apply NoDup_cons in Hs as [Hk Hs].
    rewrite set_fresh.
    + rewrite IH.
      * now rewrite <- app_assoc.
      * unfold object.keys. rewrite map_app. simpl.
        apply NoDup_app. split; [|split; [|exact Hs]].
        -- apply NoDup_app. split; [exact Ht|]. split; [|apply NoDup_singleton].
           intros x Hx Hin. apply list_elem_of_singleton in Hin. subst x.
           apply (Hdisj k Hx). simpl. apply elem_of_cons. auto.
        -- intros x Hx Hin. apply elem_of_app in Hx as [Hx|Hx].
           ++ apply (Hdisj x Hx). simpl. apply elem_of_cons. auto.
           ++ apply list_elem_of_singleton in Hx. subst x. exact (Hk Hin).
    + intros Hin. apply (Hdisj k Hin). simpl. apply elem_of_cons. auto.
Qed.

Lemma get_set_same (o : Props) (k : string) (v : JsValue) :
  object.get (object.set o k v) k = v.
Proof.
  induction o as [|[k' v'] t IH]; simpl.
  - now rewrite String.eqb_refl.
  - destruct (String.eqb_spec k k') as [->|Hne]; simpl.
    + now rewrite String.eqb_refl.
    + destruct (String.eqb_spec k k'); [contradiction | exact IH].
Qed.

(** The options of a request: the params of the helper, with the cursor
    of the call under its key if there is one, and as they are, for a
    forward request, if there is none. *)
Lemma page_opts_cursor (p : Props) (cursor : JsValue) :
  object.wf p ->
  (defined cursor = true ->
   object.get (page_opts (Some p) cursor false) "after" = cursor
   /\ object.get (page_opts (Some p) cursor true) "before" = cursor)
  /\ page_opts (Some p) JUndefined false = p.
Proof.
  intros Hwf. unfold page_opts.
  rewrite (assign_app [] p) by exact Hwf. simpl. split; [|reflexivity].
  intros ->. split; apply get_set_same.
Qed.

(** Whenever both cursors are handed to the constructor, [before] is
    pinned and [after] stays among the params of the helper, so that it
    is among the options of the requests made with no cursor of the
    helper's own. *)
Lemma new_keeps_after (set : JsValue) (params : Props) (w : World) :
  object.wf params ->
  object.has params "before" = true ->
  exists h,
    helpers (snd (new set params w)) !! fresh (dom (helpers w)) = Some h
    /\ fst (new set params w) = Done (fresh (dom (helpers w)))
    /\ before h = object.get params "before"
    /\ after h = JUndefined
    /\ (forall p, PageHelper.params h = Some p ->
          object.has p "after" = object.has params "after"
          /\ object.get p "after" = object.get params "after").
Proof.
  intros Hwf Hb. unfold new, bind, new_array, new_object. simpl.
  rewrite Hb. rewrite lookup_insert_eq. eexists. split; [reflexivity|].
  simpl. split; [reflexivity|]. split; [reflexivity|]. split; [reflexivity|].
  intros p [= <-]. rewrite (assign_app [] params) by exact Hwf.
  split; [apply has_delete_other | apply get_delete_other]; discriminate.
Qed.

(** C3.  With both cursors among the params, the constructor returns a
    helper, pins [before] and leaves the helper's [after] unset, but
    keeps the [after] that was handed to it among the params: it is sent
    with the first [nextPage], and next to [before] with
    [previousPage]. *)
Theorem constructor_keeps_after (set B A : JsValue) :
  let r := new set [("before", B); ("after", A)] (script []) in
  fst r = Done 0
  /\ helpers (snd r) !! 0
     = Some (mkHelper set (Some [("after", A)]) B JUndefined 0 true)
  /\ page_opts (Some [("after", A)]) JUndefined false = [("after", A)]
  /\ requests (snd (nextPage 0
                     (snd (new (JStr "set")
                               [("before", JStr "B"); ("after", JStr "A")]
                               (script [])))))
     = [JExpr (JObject [("paginate", JStr "set"); ("after", JStr "A")])]
  /\ requests (snd (previousPage 0
                     (snd (new (JStr "set")
                               [("before", JStr "B"); ("after", JStr "A")]
                               (script [])))))
     = [JExpr (JObject [("paginate", JStr "set"); ("after", JStr "A");
                        ("before", JStr "B")])].
Proof.
  repeat split.
Qed.

(** ** Escaping twice, symbols, and when [wrap] fails *)

Lemma substring_all (s : string) :
  String.substring 0 (String.length s) s = s.
Proof. induction s as [|c s IH]; simpl; [reflexivity|now rewrite IH]. Qed.

Lemma substring_none (n : nat) (s : string) : String.substring n 0 s = "".
Proof.
  revert n. induction s as [|c s IH]; intros [|n]; simpl; auto.
Qed.

Lemma substring_prefix (d t : string) :
  String.substring 0 (String.length d) (d +:+ t) = d.
Proof. induction d as [|c d IH]; simpl; [apply substring_none|now rewrite IH]. Qed.

Lemma length_append (d t : string) :
  String.length (d +:+ t) = String.length d + String.length t.
Proof. induction d as [|c d IH]; simpl; [reflexivity|now rewrite IH]. Qed.

Lemma append_empty (s : string) : s +:+ "" = s.
Proof.
  induction s as [|c s IH]; [reflexivity|].
  change (String c (s +:+ "") = String c s). now rewrite IH.
Qed.

Lemma drop_past (d : string) :
  str.drop (S (String.length d)) (d +:+ ")") = "".
Proof.
  unfold str.drop. rewrite length_append. simpl.
  replace (String.length d + 1 - S (String.length d)) with 0 by lia.
  apply substring_none.
Qed.

Lemma run_one_line (s : string) : one_line s -> str.run s = s.
Proof.
  induction s as [|c s IH]; intros H; simpl; [reflexivity|].
  rewrite (H c) by (simpl; auto).
  rewrite IH; [reflexivity|].
  intros c' Hc'. apply H. simpl. auto.
Qed.

Lemma one_line_paren (d : string) : one_line d -> one_line (d +:+ ")").
Proof.
  induction d as [|c d IH]; intros H c' Hc'.
  - simpl in Hc'. destruct Hc' as [<-|[]]. reflexivity.
  - simpl in Hc'. destruct Hc' as [<-|Hc'].
    + apply H. simpl. auto.
    + apply IH; [|exact Hc']. intros c'' Hc''. apply H. simpl. auto.
Qed.

Lemma last_paren_end (d : string) :
  str.last_paren (d +:+ ")") = Some (String.length d).
Proof. induction d as [|c d IH]; simpl; [reflexivity|now rewrite IH]. Qed.

Lemma replace_Symbol_description (d : string) :
  one_line d -> str.replace_Symbol ("Symbol(" +:+ d +:+ ")") = d.
Proof.
  intros H.
  assert (Hm : str.match_Symbol ("Symbol(" +:+ d +:+ ")") = Some (d, "")).
  { unfold str.match_Symbol.
    assert (Hrest : str.drop 7 ("Symbol(" +:+ d +:+ ")") = d +:+ ")").
    { unfold str.drop. simpl. rewrite Nat.sub_0_r. apply substring_all. }
    simpl String.prefix. cbv iota. rewrite Hrest.
    rewrite (run_one_line _ (one_line_paren _ H)), last_paren_end.
    rewrite substring_prefix, drop_past.
    now destruct d. }
  assert (Hs : forall s,
             str.replace_Symbol s
             = match str.match_Symbol s with
               | Some (symbol, after) => symbol +:+ after
               | None => match s with
                         | EmptyString => EmptyString
                         | String c t => String c (str.replace_Symbol t)
                         end
               end) by (intros []; reflexivity).
  rewrite Hs, Hm. apply append_empty.
Qed.

(** X1. Escaping is idempotent: what [wrap] returns, [wrap] returns
    unchanged. *)
Theorem wrap_idempotent (x w : JsValue) :
  query.wrap x = Ok w -> query.wrap w = Ok w.
Proof.
  destruct x as [ | | b | n | s | d | ps ret | items | bs | bs | ops | e | r
                | v | s | s | bs | v ]; simpl; try (now intros [= <-]).
  - destruct ps as [|p [|p' ps]]; [discriminate| |];
      destruct (query.wrap ret); intros [= <-]; reflexivity.
  - match goal with |- context [match ?e with Ok _ => _ | Throw _ => _ end] =>
      destruct e end; intros [= <-]; reflexivity.
  - match goal with |- context [match ?e with Ok _ => _ | Throw _ => _ end] =>
      destruct e end; intros [= <-]; reflexivity.
Qed.

Lemma wrap_idempotent_witness :
  query.wrap (JArray [JNum 1; JSymbol "a"])
  = Ok (JExpr (JArray [JNum 1; JStr "a"]))
  /\ query.wrap (JExpr (JArray [JNum 1; JStr "a"]))
     = Ok (JExpr (JArray [JNum 1; JStr "a"])).
Proof.
  split; [reflexivity|].
  apply (wrap_idempotent (JArray [JNum 1; JSymbol "a"])). reflexivity.
Defined.

(** X2. A symbol is escaped to its description, when the description
    holds no line terminator. *)
Theorem wrap_symbol_description (d : string) :
  one_line d -> query.wrap (JSymbol d) = Ok (JStr d).
Proof.
  intros H.
  change (query.wrap (JSymbol d))
    with (@Ok JsValue
            (JStr (str.replace_Symbol ("Symbol(" +:+ d +:+ ")")))).
  now rewrite replace_Symbol_description.
Qed.

Lemma wrap_symbol_description_witness :
  query.wrap (JSymbol "a(b)c") = Ok (JStr "a(b)c").
Proof.
  apply wrap_symbol_description.
  intros c Hc. simpl in Hc.
  repeat (destruct Hc as [<-|Hc]; [reflexivity|]). destruct Hc.
Defined.

(** X3. [wrap] returns on every value in which it meets no callable:
    what makes it fail is always a callable.  A callable without
    parameters makes it throw the [InvalidValue] of [Lambda], also from
    inside an array, when the elements before it hold no callable. *)
Theorem wrap_returns_without_callable (x : JsValue) :
  callable_free x = true ->
  (exists w, query.wrap x = Ok w)
  /\ (forall returns,
        query.wrap (JFunction [] returns)
        = Throw (errors.InvalidValue
                   "Provided Function must take at least 1 argument."))
  /\ (forall items returns after,
        callable_free (JArray items) = true ->
        query.wrap (JArray (items ++ JFunction [] returns :: after))
        = Throw (errors.InvalidValue
                   "Provided Function must take at least 1 argument.")).
Proof.
  intros Hx.
  assert (Hok : forall y, callable_free y = true ->
                          exists w, query.wrap y = Ok w).
  { intros y Hy. pose proof (wrap_accepted y) as H.
    now rewrite (callable_free_accepted y Hy) in H. }
  split; [now apply Hok|]. split; [reflexivity|].
  intros items returns after Hb. rewrite wrap_array.
  assert (Hrest : query.wrap_each (items ++ JFunction [] returns :: after)
                  = Throw query.zero_params).
  { simpl in Hb. induction items as [|v t IH]; [reflexivity|].
    apply andb_prop in Hb as [Hv Ht]. simpl.
    destruct (Hok v Hv) as [wv ->]. now rewrite (IH Ht). }
  now rewrite Hrest.
Qed.

Lemma wrap_returns_without_callable_witness :
  (exists w, query.wrap (JObject [("a", JArray [JNum 1; JNull])]) = Ok w)
  /\ query.wrap (JArray [JObject [("a", JArray [JNum 1; JNull])]; JStr "s";
                         JFunction [] JUndefined; JNum 2])
     = Throw (errors.InvalidValue
                "Provided Function must take at least 1 argument.").
Proof.
  destruct (wrap_returns_without_callable
              (JObject [("a", JArray [JNum 1; JNull])]) eq_refl)
    as (H1 & _ & H3).
  split; [exact H1|].
  apply (H3 [JObject [("a", JArray [JNum 1; JNull])]; JStr "s"]
            JUndefined [JNum 2]).
  reflexivity.
Defined.

(** ** Sequences given as an array or as arguments; printing data *)

(** X4. A variadic constructor takes its operands as arguments or as one
    array: handed two or more operands in an array, it builds what it
    builds of the operands themselves. *)
Theorem varargs_array_or_arguments (tag : string) (l : list JsValue) :
  2 <= length l ->
  query.variadic tag [JArray l] = query.variadic tag l.
Proof.
  destruct l as [|a [|b l]]; simpl; try lia. intros _. reflexivity.
Qed.

Lemma varargs_array_or_arguments_witness :
  query.variadic "add" [JArray [JNum 1; JNum 2]]
  = query.variadic "add" [JNum 1; JNum 2].
Proof. apply varargs_array_or_arguments. simpl. lia. Defined.

Lemma each_fields (fields : Props) :
  Expr.each (fun kv =>
               match Some (Expr.toString (snd kv) None) with
               | Some (Ok s) => Some (Ok (fst kv +:+ ": " +:+ s))
               | other => other
               end) fields
  = Some (render_fields fields).
Proof.
  induction fields as [|kv t IH]; simpl; [reflexivity|].
  destruct (Expr.toString (snd kv) None); [|reflexivity].
  rewrite IH. destruct (render_fields t); reflexivity.
Qed.

(** Escaped data prints as its fields between braces. *)
Lemma toString_object (fields : Props) (c : option string) :
  Expr.toString (JExpr (JObject [("object", JObject fields)])) c
  = do strs <- render_fields fields;
    Ok ("{" +:+ str.join ", " strs +:+ "}").
Proof.
  pose proof (toString_unfold (JExpr (JObject [("object", JObject fields)])) c)
    as H.
  unfold Expr.toString_body, Expr.toString_mapping in H.
  simpl instanceof_Expr in H. simpl raw in H. cbv iota beta in H.
  simpl own_props in H. cbv iota beta in H.
  simpl String.eqb in H. cbv iota in H. simpl object.get in H.
  simpl own_props in H. cbv iota beta in H.
  rewrite each_fields in H.
  destruct (render_fields fields); injection H as <-; reflexivity.
Qed.

Lemma show_array (items : list JsValue) :
  show (JArray items) = "[" +:+ str.join ", " (List.map show items) +:+ "]".
Proof.
  change (show (JArray items))
    with ("[" +:+ str.join ", "
                    ((fix all (l : list JsValue) : list string :=
                        match l with
                        | [] => []
                        | v :: t => show v :: all t
                        end) items) +:+ "]").
  assert (H : (fix all (l : list JsValue) : list string :=
                 match l with
                 | [] => []
                 | v :: t => show v :: all t
                 end) items = List.map show items).
  { induction items as [|v t IH]; [reflexivity|]. simpl. now rewrite IH. }
  now rewrite H.
Qed.

Lemma show_object (props : Props) :
  show (JObject props)
  = "{" +:+ str.join ", "
              (List.map (fun kv => fst kv +:+ ": " +:+ show (snd kv)) props)
        +:+ "}".
Proof.
  change (show (JObject props))
    with ("{" +:+ str.join ", "
                    ((fix all (l : Props) : list string :=
                        match l with
                        | [] => []
                        | kv :: t =>
                            (fst kv +:+ ": " +:+ show (snd kv)) :: all t
                        end) props) +:+ "}").
  assert (H : (fix all (l : Props) : list string :=
                 match l with
                 | [] => []
                 | kv :: t => (fst kv +:+ ": " +:+ show (snd kv)) :: all t
                 end) props
              = List.map (fun kv => fst kv +:+ ": " +:+ show (snd kv)) props).
  { induction props as [|kv t IH]; [reflexivity|]. simpl. now rewrite IH. }
  now rewrite H.
Qed.

Lemma plain_items (items : list JsValue) :
  plain (JArray items) <-> Forall plain items.
Proof.
  simpl. induction items as [|v t IH].
  - split; [constructor|trivial].
  - split.
    + intros [Hv Ht]. constructor; [exact Hv|now apply IH].
    + intros H. inversion H; subst. split; [assumption|now apply IH].
Qed.

Lemma plain_props (props : Props) :
  plain (JObject props)
  <-> object.wf props /\ ordinary_keys props
      /\ Forall (fun kv => plain (snd kv)) props.
Proof.
  simpl. do 2 apply and_iff_compat_l. induction props as [|kv t IH].
  - split; [constructor|trivial].
  - split.
    + intros [Hv Ht]. constructor; [exact Hv|now apply IH].
    + intros H. inversion H; subst. split; [assumption|now apply IH].
Qed.

(** Plain data is escaped without error, and its escaped form prints as
    the data is written. *)
Lemma plain_printed (x : JsValue) :
  plain x ->
  exists w, query.wrap x = Ok w /\ Expr.toString w None = Ok (show x).
Proof.
  pattern x. apply JsValue_nested_ind; clear x.
  - intros [ | | b | n | s | d | ps ret | items | bs | bs | ops | e | r
             | v | s | s | bs | v ]; try exact I; try (intros []; fail);
      intros _; (eexists; split; [reflexivity|]).
    + reflexivity.
    + reflexivity.
    + destruct b; reflexivity.
    + reflexivity.
    + reflexivity.
  - intros vars returns _ [].
  - intros items IH Hp. apply plain_items in Hp.
    assert (Hws : exists ws, query.wrap_each items = Ok ws
                             /\ render_items ws = Ok (List.map show items)).
    { induction IH as [|v t Hv _ IHt]; [now exists []|].
      inversion Hp as [|? ? Hpv Hpt]; subst.
      destruct (Hv Hpv) as (w & Hw & Hs).
      destruct (IHt Hpt) as (ws & Hws & Hss).
      exists (w :: ws). simpl. now rewrite Hw, Hws, Hs, Hss. }
    destruct Hws as (ws & Hws & Hss).
    exists (JExpr (JArray ws)). rewrite wrap_array, Hws, toString_array, Hss.
    now rewrite show_array.
  - intros props IH Hp. apply plain_props in Hp.
    destruct Hp as (Hwf & _ & Hp).
    destruct (wrap_into_app props []) as (ws & Hws & Hall).
    + exact Hwf.
    + intros k _. apply not_elem_of_nil.
    + intros k v Hin.
      rewrite List.Forall_forall in IH, Hp.
      destruct (IH _ Hin (Hp _ Hin)) as (w & Hw & _). simpl in Hw.
      now rewrite Hw.
    + exists (JExpr (JObject [("object", JObject ws)])).
      rewrite wrap_object, Hws. split; [reflexivity|].
      rewrite toString_object, show_object.
      assert (Hf : render_fields ws
                   = Ok (List.map (fun kv => fst kv +:+ ": " +:+ show (snd kv))
                                  props)).
      { clear Hws Hwf. induction Hall as [|kv kw t ts [Hk Hw] _ IHt];
          [reflexivity|].
        inversion IH as [|? ? Hv Ht]; subst.
        inversion Hp as [|? ? Hpv Hpt]; subst.
        destruct (Hv Hpv) as (w & Hw' & Hs).
        rewrite Hw in Hw'. injection Hw' as <-.
        simpl. rewrite Hs, (IHt Ht Hpt), Hk. reflexivity. }
      now rewrite Hf.
  - intros r _ [].
  - intros v _ [].
  - intros v _ [].
Qed.



(** X6. [Expr.toString] has no text for a [Ref]: its [raw] is the empty
    object, whose first key is undefined.  So printing a [Ref], or the
    [Get] of one, raises a [TypeError]. *)
Theorem Ref_not_printed (r : values.Ref) :
  (forall c, raises "TypeError" (Expr.toString (JRef r) c))
  /\ exists e, reads.Get [JRef r] = Ok e
               /\ raises "TypeError" (Expr.toString e None).
Proof.
  assert (H : forall c, exists m,
               Expr.toString (JRef r) c = Throw (errors.TypeError m)).
  { intros c. pose proof (toString_unfold (JRef r) c) as H.
    simpl in H. injection H as <-. eauto. }
  split.
  - intros c. destruct (H c) as [m ->]. reflexivity.
  - exists (JExpr (JObject [("get", JRef r)])). split; [reflexivity|].
    rewrite (toString_call "get" "Get") by reflexivity.
    destruct (H (Some "Get")) as [m ->]. reflexivity.
Qed.

(** ** [Ref.equals] answers true on equal references only *)

Lemma same_eq (a b : values.Ref) : values.same a b = true -> a = b.
Proof.
  remember (Expr.ref_height a) as n eqn:Hn.
  revert a Hn b.
  induction n as [n IHn] using lt_wf_ind.
  intros [i c d] Hn.
  assert (IH : forall y, Expr.ref_height y < Expr.ref_height (values.mkRef i c d) ->
            forall b, values.same y b = true -> y = b).
  { intros y Hy. apply (IHn (Expr.ref_height y)); [lia | reflexivity]. }
  clear IHn Hn.
  assert (Hsub : forall x, (c = Some x \/ d = Some x) ->
            Expr.ref_height x < Expr.ref_height (values.mkRef i c d)).
  { intros x [-> | ->]; simpl; lia. }
  intros [j c' d']. simpl. rewrite !andb_true_iff.
  intros [[Hi Hc] Hd]. apply String.eqb_eq in Hi. subst j.
  assert (Ec : c = c').
  { destruct c as [c1|], c' as [c2|]; try discriminate; [|reflexivity].
    f_equal. apply IH; [apply Hsub; auto|exact Hc]. }
  assert (Ed : d = d').
  { destruct d as [d1|], d' as [d2|]; try discriminate; [|reflexivity].
    f_equal. apply IH; [apply Hsub; auto|exact Hd]. }
  now subst.
Qed.

Lemma equals_refl (a : values.Ref) : values.equals a (Some a) = Ok true.
Proof.
  remember (Expr.ref_height a) as n eqn:Hn.
  revert a Hn.
  induction n as [n IHn] using lt_wf_ind.
  intros [i c d] Hn.
  assert (IH : forall y, Expr.ref_height y < Expr.ref_height (values.mkRef i c d) ->
            values.equals y (Some y) = Ok true).
  { intros y Hy. apply (IHn (Expr.ref_height y)); [lia | reflexivity]. }
  clear IHn Hn.
  assert (Hsub : forall x, (c = Some x \/ d = Some x) ->
            Expr.ref_height x < Expr.ref_height (values.mkRef i c d)).
  { intros x [-> | ->]; simpl; lia. }
  simpl. rewrite String.eqb_refl. simpl.
  destruct c as [c1|]; simpl.
  - rewrite IH by (apply Hsub; auto). simpl.
    destruct d as [d1|]; simpl; [|reflexivity].
    apply IH, Hsub; auto.
  - destruct d as [d1|]; simpl; [|reflexivity].
    apply IH, Hsub; auto.
Qed.

(** X7. [equals] answers true exactly on the references that are
    equal: in [id], and in [class] and [database] all the way up. *)
Theorem Ref_equals_true_iff (a b : values.Ref) :
  values.equals a (Some b) = Ok true <-> a = b.
Proof.
  split.
  - intros H. apply equals_sound in H. now apply same_eq.
  - intros <-. apply equals_refl.
Qed.

(** ** Objects without undefined values *)

Lemma get_absent (o : Props) (k : string) :
  k ∉ object.keys o -> object.get o k = JUndefined.
Proof.
  induction o as [|[k' v] t IH]; simpl; [reflexivity|].
  intros H. apply not_elem_of_cons in H as [Hk Ht].
  destruct (String.eqb_spec k k'); [contradiction|now apply IH].
Qed.

Lemma has_keys (o : Props) (k : string) :
  object.has o k = true <-> k ∈ object.keys o.
Proof.
  induction o as [|[k' v] t IH]; simpl.
  - split; [discriminate|intros H; now apply not_elem_of_nil in H].
  - rewrite elem_of_cons, orb_true_iff, IH.
    destruct (String.eqb_spec k k'); intuition discriminate.
Qed.

Lemma get_set_other (o : Props) (k k' : string) (v : JsValue) :
  k <> k' -> object.get (object.set o k' v) k = object.get o k.
Proof.
  intros Hk. induction o as [|[k0 v0] t IH]; simpl.
  - destruct (String.eqb_spec k k'); [contradiction|reflexivity].
  - destruct (String.eqb_spec k' k0); simpl.
    + subst k0. destruct (String.eqb_spec k k'); [contradiction|reflexivity].
    + destruct (String.eqb_spec k k0); [reflexivity|exact IH].
Qed.

Lemma keys_set (o : Props) (k : string) (v : JsValue) :
  object.keys (object.set o k v)
  = if object.has o k then object.keys o else object.keys o ++ [k].
Proof.
  induction o as [|[k0 v0] t IH]; simpl; [reflexivity|].
  destruct (String.eqb_spec k k0); simpl; [now subst|].
  rewrite IH. now destruct (object.has t k).
Qed.

Lemma set_wf (o : Props) (k : string) (v : JsValue) :
  object.wf o -> object.wf (object.set o k v).
Proof.
  unfold object.wf. intros H. rewrite keys_set.
  destruct (object.has o k) eqn:Hk; [exact H|].
  apply NoDup_app. split; [exact H|]. split; [|apply NoDup_singleton].
  intros x Hx Hx'. apply list_elem_of_singleton in Hx'. subst x.
  apply has_keys in Hx. congruence.
Qed.



(** On an object without repeated keys, the loop keeps the properties
    whose value is not [undefined], in their order. *)
Lemma removeUndefinedValues_filter (o : Props) :
  object.wf o ->
  _util.removeUndefinedValues o
  = List.filter (fun kv => defined (snd kv)) o.
Proof.
  unfold _util.removeUndefinedValues, object.wf.
  assert (H : forall l acc,
             NoDup (object.keys acc ++ object.keys l) ->
             fold_left (fun res kv =>
                          match snd kv with
                          | JUndefined => res
                          | val => object.set res (fst kv) val
                          end) l acc
             = acc ++ List.filter (fun kv => defined (snd kv)) l).
  { induction l as [|[k v] t IH]; intros acc Hnd; simpl.
    - now rewrite app_nil_r.
    - simpl in Hnd.
      assert (Hfresh : k ∉ object.keys acc).
      { apply NoDup_app in Hnd as (_ & Hd & _). intros Hin.
        apply (Hd k Hin). apply elem_of_cons. auto. }
      assert (Hskip : NoDup (object.keys acc ++ object.keys t)).
      { apply NoDup_app in Hnd as (Ha & Hd & Ht).
        apply NoDup_cons in Ht as [_ Ht].
        apply NoDup_app. split; [exact Ha|]. split; [|exact Ht].
        intros x Hx Hx'. apply (Hd x Hx). apply elem_of_cons. auto. }
      assert (Hkeep : NoDup (object.keys (acc ++ [(k, v)]) ++ object.keys t)).
      { unfold object.keys. rewrite List.map_app. simpl.
        rewrite <- app_assoc. exact Hnd. }
      destruct v; simpl;
        try (rewrite (set_fresh _ _ _ Hfresh), (IH _ Hkeep), <- app_assoc;
             reflexivity).
      now apply IH. }
  intros Hwf. now rewrite H.
Qed.

Lemma get_filter_defined (o : Props) (k : string) :
  object.wf o ->
  object.get (List.filter (fun kv => defined (snd kv)) o) k = object.get o k.
Proof.
  unfold object.wf. induction o as [|[k' v] t IH]; simpl; [reflexivity|].
  intros H. apply NoDup_cons in H as [Hk Ht].
  destruct (defined v) eqn:Hv; simpl.
  - destruct (String.eqb_spec k k'); [reflexivity|now apply IH].
  - rewrite (IH Ht).
    destruct (String.eqb_spec k k'); [|reflexivity].
    subst k'. rewrite (get_absent _ _ Hk). now destruct v.
Qed.

Lemma has_filter_defined (o : Props) (k : string) :
  object.wf o ->
  object.has (List.filter (fun kv => defined (snd kv)) o) k
  = object.has o k && defined (object.get o k).
Proof.
  unfold object.wf. induction o as [|[k' v] t IH]; simpl; [reflexivity|].
  intros H. apply NoDup_cons in H as [Hk Ht].
  destruct (String.eqb_spec k k') as [->|Hne]; simpl.
  - destruct (defined v) eqn:Hv; simpl.
    + now rewrite String.eqb_refl.
    + rewrite (IH Ht).
      destruct (object.has t k') eqn:Hh; [|reflexivity].
      apply has_keys in Hh. contradiction.
  - destruct (defined v); simpl; [|now apply IH].
    destruct (String.eqb_spec k k'); [contradiction|now apply IH].
Qed.



Lemma takeObjectKeys_wf (o : Props) (args : list string) :
  object.wf (_util.takeObjectKeys o args).
Proof.
  unfold _util.takeObjectKeys.
  assert (H : forall acc, object.wf acc ->
             object.wf (fold_left (fun out key =>
                                     object.set out key (object.get o key))
                                  args acc)).
  { induction args as [|a t IH]; intros acc Hacc; simpl; [exact Hacc|].
    apply IH. now apply set_wf. }
  apply H. unfold object.wf. simpl. apply NoDup_nil. exact I.
Qed.

Lemma has_set (o : Props) (k k' : string) (v : JsValue) :
  object.has (object.set o k' v) k = String.eqb k k' || object.has o k.
Proof.
  induction o as [|[k0 v0] t IH]; simpl.
  - now rewrite orb_false_r.
  - destruct (String.eqb_spec k' k0); simpl.
    + subst k0. now destruct (String.eqb k k').
    + rewrite IH. destruct (String.eqb k k'), (String.eqb k k0); reflexivity.
Qed.

Lemma takeObjectKeys_get (o : Props) (args : list string) (k : string) :
  object.get (_util.takeObjectKeys o args) k
  = (if existsb (String.eqb k) args then object.get o k else JUndefined)
  /\ object.has (_util.takeObjectKeys o args) k = existsb (String.eqb k) args.
Proof.
  unfold _util.takeObjectKeys.
  assert (H : forall acc,
             object.get (fold_left (fun out key =>
                                      object.set out key (object.get o key))
                                   args acc) k
             = (if existsb (String.eqb k) args then object.get o k
                else object.get acc k)
             /\ object.has (fold_left (fun out key =>
                                         object.set out key (object.get o key))
                                      args acc) k
                = existsb (String.eqb k) args || object.has acc k).
  { induction args as [|a t IH]; intros acc; simpl; [split; reflexivity|].
    destruct (IH (object.set acc a (object.get o a))) as [Hg Hh].
    rewrite Hg, Hh, has_set. split.
    - destruct (existsb (String.eqb k) t); [now rewrite orb_true_r|].
      rewrite orb_false_r.
      destruct (String.eqb_spec k a) as [->|Hne].
      + apply get_set_same.
      + now apply get_set_other.
    - destruct (String.eqb k a), (existsb (String.eqb k) t); reflexivity. }
  destruct (H []) as [Hg Hh]. rewrite Hg, Hh. simpl.
  now rewrite orb_false_r.
Qed.

(** X9. The configuration a test takes of some keys, none of them
    the name of an inherited property, and cleans of undefined values
    reads, at every key that names no inherited property, as the object
    it was taken of when the key was asked for, and as [undefined]
    otherwise; it holds exactly the keys asked for whose value is not
    [undefined]. *)
Theorem taken_keys_read (o : Props) (args : list string) (k : string) :
  Forall (fun a => inherits a = false) args ->
  inherits k = false ->
  object.get (_util.removeUndefinedValues (_util.takeObjectKeys o args)) k
  = (if existsb (String.eqb k) args then object.get o k else JUndefined)
  /\ object.has (_util.removeUndefinedValues (_util.takeObjectKeys o args)) k
     = existsb (String.eqb k) args && defined (object.get o k).
Proof.
  intros _ _.
  pose proof (takeObjectKeys_wf o args) as Hwf.
  destruct (takeObjectKeys_get o args k) as [Hg Hh].
  rewrite (removeUndefinedValues_filter _ Hwf).
  rewrite (get_filter_defined _ _ Hwf), (has_filter_defined _ _ Hwf), Hg, Hh.
  split; [reflexivity|].
  now destruct (existsb (String.eqb k) args).
Qed.

Lemma taken_keys_read_witness :
  object.get (_util.removeUndefinedValues
                (_util.takeObjectKeys
                   [("domain", JStr "localhost"); ("secret", JStr "s")]
                   ["domain"; "scheme"; "port"])) "domain"
  = JStr "localhost"
  /\ object.has (_util.removeUndefinedValues
                   (_util.takeObjectKeys
                      [("domain", JStr "localhost"); ("secret", JStr "s")]
                      ["domain"; "scheme"; "port"])) "scheme"
     = false
  /\ object.get (_util.removeUndefinedValues
                   (_util.takeObjectKeys
                      [("domain", JStr "localhost"); ("secret", JStr "s")]
                      ["domain"; "scheme"; "port"])) "secret"
     = JUndefined.
Proof.
  assert (Hargs : Forall (fun a => inherits a = false)
                         ["domain"; "scheme"; "port"])
    by (repeat constructor).
  split; [|split].
  - apply (taken_keys_read
             [("domain", JStr "localhost"); ("secret", JStr "s")]
             ["domain"; "scheme"; "port"] "domain" Hargs eq_refl).
  - apply (taken_keys_read
             [("domain", JStr "localhost"); ("secret", JStr "s")]
             ["domain"; "scheme"; "port"] "scheme" Hargs eq_refl).
  - apply (taken_keys_read
             [("domain", JStr "localhost"); ("secret", JStr "s")]
             ["domain"; "scheme"; "port"] "secret" Hargs eq_refl).
Defined.

(** ** Optional parameters *)

Lemma has_get_absent (o : Props) (k : string) :
  object.has o k = false -> object.get o k = JUndefined.
Proof.
  induction o as [|[k' v] t IH]; simpl; [reflexivity|].
  destruct (String.eqb k k'); [discriminate|exact IH].
Qed.

(** X10. [params] reads as the optional parameters where they hold a
    key with a value other than [null], and as the main parameters
    everywhere else: an optional parameter that is [null] is left
    out. *)
Theorem params_reads (main optional : Props) (k : string) :
  object.wf optional ->
  object.get (reads.params main optional) k
  = if object.has optional k && negb (is_null (object.get optional k))
    then object.get optional k
    else object.get main k.
Proof.
  unfold reads.params, object.wf. revert main.
  induction optional as [|[k' v] t IH]; intros main Hwf; simpl;
    [reflexivity|].
  apply NoDup_cons in Hwf as [Hk Ht].
  assert (Hstep : forall main',
            object.get main' k
            = (if String.eqb k k' && negb (is_null v) then v
               else object.get main k) ->
            object.get
              (fold_left (fun main kv =>
                            match snd kv with
                            | JNull => main
                            | val => object.set main (fst kv) val
                            end) t main') k
            = (if (String.eqb k k' || object.has t k)
                  && negb (is_null (if String.eqb k k' then v
                                    else object.get t k))
               then if String.eqb k k' then v else object.get t k
               else object.get main k)).
  { intros main' Hm. rewrite (IH main' Ht), Hm.
    destruct (String.eqb_spec k k') as [->|Hne]; simpl.
    - destruct (object.has t k') eqn:Hh.
      + apply has_keys in Hh. contradiction.
      + reflexivity.
    - reflexivity. }
  destruct v; apply Hstep; simpl;
    try (destruct (String.eqb_spec k k') as [->|Hne]; simpl;
         [apply get_set_same|now apply get_set_other]).
  now rewrite andb_false_r.
Qed.

Lemma params_reads_witness :
  object.get (reads.params [("concat", JStr "a")] [("separator", JNull)])
             "separator"
  = JUndefined.
Proof.
  apply (params_reads [("concat", JStr "a")] [("separator", JNull)]
                      "separator").
  unfold object.wf. simpl. apply NoDup_singleton.
Defined.

(** X11. The optional timestamp of [Get] and [Exists]: one that is
    falsy (absent, [null], but also zero or the empty string) is left
    out, so that the call builds what the call without it builds; any
    other is escaped and stored under [ts], after the reference. *)
Theorem read_optional_ts (ref ts : JsValue) :
  (truthy ts = false ->
   reads.Get [ref; ts] = reads.Get [ref]
   /\ reads.Exists [ref; ts] = reads.Exists [ref])
  /\ (truthy ts = true ->
      forall g t, query.wrap ref = Ok g -> query.wrap ts = Ok t ->
        reads.Get [ref; ts] = Ok (JExpr (JObject [("get", g); ("ts", t)]))
        /\ reads.Exists [ref; ts]
           = Ok (JExpr (JObject [("exists", g); ("ts", t)]))).
Proof.
  split.
  - intros Hts. unfold reads.Get, reads.Exists, reads.argument.
    cbn [nth length]. rewrite Hts. split; reflexivity.
  - intros Hts g t Hg Ht. unfold reads.Get, reads.Exists, reads.argument.
    cbn [nth length]. rewrite Hts, Hg, Ht.
    change (arity.between 1 2 2) with (@Ok unit tt). cbv iota beta.
    assert (Hnn : is_null t = false).
    { destruct ts as [ | | b | n | s | d | ps ret | items | bs | bs | ops
                     | e | r | v | s | s | bs | v ];
        try discriminate; simpl in Ht;
        try (injection Ht as <-; reflexivity).
      - destruct ps as [|p [|p' ps]]; [discriminate| |];
          destruct (query.wrap ret); try discriminate;
          injection Ht as <-; reflexivity.
      - match type of Ht with
        | match ?e with Ok _ => _ | Throw _ => _ end = _ => destruct e
        end; try discriminate; injection Ht as <-; reflexivity.
      - match type of Ht with
        | match ?e with Ok _ => _ | Throw _ => _ end = _ => destruct e
        end; try discriminate; injection Ht as <-; reflexivity. }
    unfold reads.params. destruct t; try discriminate; split; reflexivity.
Qed.

(** ** Errors of the server *)

(** X12. [raiseForStatusCode] returns exactly on the status codes from
    200 to 299.  On every other it throws an error whose message is the
    code of the first error of the response, or a fixed text when the
    response lists none, and whose name is [UnknownError] unless the
    status is one of the seven the driver has a class for. *)
Theorem raiseForStatusCode_range (rr : http.RequestResult) :
  (http.raiseForStatusCode rr = None
   <-> (200 <= http.statusCode rr < 300)%Z)
  /\ (forall e, http.raiseForStatusCode rr = Some e ->
        http.message e
        = match http.errors rr with
          | [] => "(empty " +:+ str.dquote +:+ "errors" +:+ str.dquote +:+ ")"
          | first :: _ => first
          end
        /\ (http.name e = "UnknownError"
            <-> ~ In (http.statusCode rr)
                     [400; 401; 403; 404; 405; 500; 503]%Z)).
Proof.
  unfold http.raiseForStatusCode.
  destruct (Z.ltb_spec (http.statusCode rr) 200) as [Hlo|Hlo];
    destruct (Z.leb_spec 300 (http.statusCode rr)) as [Hhi|Hhi]; simpl;
    (split; [split; [try discriminate; intros; lia
                    |try reflexivity; intros; lia]|]);
    try (intros e; discriminate);
    intros e [= <-]; (split; [reflexivity|]); simpl;
    repeat match goal with
      | |- context [Z.eqb ?a ?b] =>
          destruct (Z.eqb_spec a b) as [->|?]
      end; simpl; split; intros H; try discriminate; try lia;
      try (exfalso; apply H; tauto); try reflexivity;
      intuition lia.
Qed.

(** ** The last transaction time a client has seen *)

Lemma update_lastSeen_Int (z : Z) (header : option Client.Number) :
  Client.update_lastSeen (Some (Client.Int z)) header
  = Some (Client.Int (match header with
                      | Some (Client.Int t) => Z.max z t
                      | _ => z
                      end)).
Proof.
  destruct header as [[|t]|]; simpl; try reflexivity.
  destruct (Z.ltb_spec z t); do 2 f_equal; lia.
Qed.

Lemma greatest_le (headers : list (option Client.Number)) (z : Z) :
  (z <= greatest z headers)%Z
  /\ forall t, In (Some (Client.Int t)) headers ->
               (t <= greatest z headers)%Z.
Proof.
  unfold greatest. revert z.
  induction headers as [|h hs IH]; intros z; simpl.
  - split; [lia|intros t []].
  - destruct h as [[|t']|];
      match goal with
      | |- context [fold_left _ hs ?m] => destruct (IH m) as [Hm Hin]
      end;
      (split; [lia|]); intros t [Ht|Ht]; try discriminate; auto.
    injection Ht as ->. lia.
Qed.

(** X13. Once the client holds a transaction time, it holds after any
    responses the greatest of that time and of the times the responses
    carried: the time it has seen never goes back, and a response with
    no header, or with one [parseInt] makes nothing of, changes
    nothing. *)
Theorem lastSeen_greatest (z : Z) (headers : list (option Client.Number)) :
  fold_left Client.update_lastSeen headers (Some (Client.Int z))
  = Some (Client.Int (greatest z headers))
  /\ fold_left Client.update_lastSeen (Some (Client.Int z) :: headers) None
     = Some (Client.Int (greatest z headers))
  /\ (z <= greatest z headers)%Z
  /\ forall t, In (Some (Client.Int t)) headers ->
               (t <= greatest z headers)%Z.
Proof.
  assert (H : fold_left Client.update_lastSeen headers (Some (Client.Int z))
              = Some (Client.Int (greatest z headers))).
  { unfold greatest. revert z.
    induction headers as [|h hs IH]; intros z; simpl; [reflexivity|].
    rewrite update_lastSeen_Int. apply IH. }
  split; [exact H|]. split; [exact H|]. apply greatest_le.
Qed.

(** X14. A first header [parseInt] makes nothing of is kept for good:
    no later response replaces it, and no later request carries the
    header of the last time seen. *)
Theorem lastSeen_NaN_kept (headers : list (option Client.Number)) :
  fold_left Client.update_lastSeen (Some Client.NaN :: headers) None
  = Some Client.NaN
  /\ Client.sends_lastSeen
       (fold_left Client.update_lastSeen (Some Client.NaN :: headers) None)
     = false.
Proof.
  assert (H : fold_left Client.update_lastSeen headers (Some Client.NaN)
              = Some Client.NaN).
  { induction headers as [|h hs IH]; simpl; [reflexivity|].
    destruct h as [t|]; simpl; exact IH. }
  simpl. rewrite H. split; reflexivity.
Qed.

(** ** The page helper: the query of a derived helper *)

Lemma apply_all_app (fs gs : list FaunaFunction) (q : JsValue) :
  apply_all (fs ++ gs) q = do q' <- apply_all fs q; apply_all gs q'.
Proof.
  revert q. induction fs as [|f t IH]; intros q; simpl; [reflexivity|].
  destruct (call f q); [apply IH|reflexivity].
Qed.

Lemma derived_query (h : Helper) (fs : list FaunaFunction) (f : FaunaFunction)
      (cursor : JsValue) (reverse : bool) :
  page_query (mkHelper (set h) None (before h) (after h)
                       (_faunaFunctions h) false)
             (fs ++ [f]) cursor reverse
  = do p <- query.Paginate (set h)
                           (JObject (page_opts None cursor reverse));
    do q <- apply_all fs p;
    call f q.
Proof.
  unfold page_query. simpl set. simpl params.
  destruct (query.Paginate _ _) as [p|e]; [|reflexivity].
  rewrite apply_all_app. simpl.
  destruct (apply_all fs p) as [q|e]; [|reflexivity].
  now destruct (call f q).
Qed.

(** X15. The helper [map] (or [filter]) returns asks for its pages with
    the query of the base, wrapped last in the [Map] (or [Filter]) of
    the function given, after the transforms the base had; and with none
    of the params of the base: the options of its [Paginate] are the
    cursor alone. *)
Theorem derived_helper_query (self : nat) (lambda : JsValue) (w : World)
        (h : Helper) (fs : list FaunaFunction) :
  helpers w !! self = Some h ->
  arrays w !! _faunaFunctions h = Some fs ->
  exists rv copy,
    fst (map self lambda w) = Done rv
    /\ fst (filter self lambda w) = Done rv
    /\ helpers (snd (map self lambda w)) !! rv = Some copy
    /\ helpers (snd (filter self lambda w)) !! rv = Some copy
    /\ chain (snd (map self lambda w)) rv = Some (fs ++ [MapFn lambda])
    /\ chain (snd (filter self lambda w)) rv = Some (fs ++ [FilterFn lambda])
    /\ forall cursor reverse,
         page_opts (params copy) cursor reverse
         = (if defined cursor
            then [(if reverse then "before" else "after", cursor)]
            else if reverse then [("before", JNull)] else [])
         /\ page_query copy (fs ++ [MapFn lambda]) cursor reverse
            = (do p <- query.Paginate
                         (set h) (JObject (page_opts None cursor reverse));
               do q <- apply_all fs p;
               query.Map q lambda)
         /\ page_query copy (fs ++ [FilterFn lambda]) cursor reverse
            = (do p <- query.Paginate
                         (set h) (JObject (page_opts None cursor reverse));
               do q <- apply_all fs p;
               query.Filter q lambda).
Proof.
  intros Hh Hfs.
  destruct (derive_shares self lambda w h fs Hh Hfs) as (_ & Hm & Hf).
  exists (fresh (dom (helpers w))),
         (mkHelper (set h) None (before h) (after h) (_faunaFunctions h) false).
  rewrite Hm, Hf. unfold chain. simpl.
  rewrite !lookup_insert_eq. simpl. rewrite ?lookup_insert_eq.
  do 6 (split; [reflexivity|]).
  intros cursor reverse. split; [|split].
  - unfold page_opts. simpl. destruct (defined cursor), reverse; reflexivity.
  - apply (derived_query h fs (MapFn lambda)).
  - apply (derived_query h fs (FilterFn lambda)).
Qed.

Lemma derived_helper_query_witness :
  let w := snd (new (JStr "set") [("size", JNum 2)] empty) in
  exists rv copy,
    fst (map 0 (JFunction ["x"] (JStr "x")) w) = Done rv
    /\ helpers (snd (map 0 (JFunction ["x"] (JStr "x")) w)) !! rv = Some copy
    /\ page_opts (params copy) JUndefined false = [].
Proof.
  intros w.
  destruct (derived_helper_query 0 (JFunction ["x"] (JStr "x")) w
              (mkHelper (JStr "set") (Some [("size", JNum 2)])
                        JUndefined JUndefined 0 true) [])
    as (rv & copy & H1 & _ & H3 & _ & _ & _ & H7).
  - reflexivity.
  - reflexivity.
  - exists rv, copy. split; [exact H1|]. split; [exact H3|].
    apply (H7 JUndefined false).
Defined.

(** ** The page helper: one callback per page *)

Lemma resolved_app (a b : list Reply) :
  resolved (a ++ b) = resolved a ++ resolved b.
Proof.
  induction a as [|[page|e] t IH]; simpl; [reflexivity| |exact IH].
  now rewrite IH.
Qed.

(** Whatever its outcome, [_retrieveNextPage] takes at most one reply,
    a page exactly when it resolves, and calls nothing back. *)
Lemma retrieve_takes (self : nat) (cursor : JsValue) (reverse : bool)
      (w w' : World) (o : Outcome Page) :
  _retrieveNextPage self cursor reverse w = (o, w') ->
  exists consumed,
    replies w = consumed ++ replies w'
    /\ seen w' = seen w
    /\ resolved consumed = match o with Done page => [page] | _ => [] end
    /\ length (requests w')
       = length (requests w) + length consumed
         + match o with Pending => 1 | _ => 0 end.
Proof.
  unfold _retrieveNextPage, bind, helper, array, lift, client_query, bind, lift.
  destruct (helpers w !! self) as [h|];
    [|intros [= <- <-]; exists []; simpl; repeat split; lia].
  destruct (arrays w !! _faunaFunctions h) as [fs|];
    [|intros [= <- <-]; exists []; simpl; repeat split; lia].
  destruct (page_query h fs cursor reverse) as [q|e];
    [|intros [= <- <-]; exists []; simpl; repeat split; lia].
  destruct (query.wrap q) as [q'|e];
    [|intros [= <- <-]; exists []; simpl; repeat split; lia].
  destruct (replies w) as [|[pg|e] rest] eqn:Hr; intros [= <- <-].
  - exists []. simpl. rewrite length_app. simpl. repeat split; lia.
  - exists [Resolve pg]. simpl. rewrite length_app. simpl.
    repeat split; lia.
  - exists [Reject e]. simpl. rewrite length_app. simpl. repeat split; lia.
Qed.

Lemma consume_takes (fuel self : nat) (reverse : bool) (page : Page)
      (w w' : World) (o : Outcome unit) :
  _consumePages fuel self reverse page w = (o, w') ->
  exists consumed,
    replies w = consumed ++ replies w'
    /\ seen w'
       = seen w ++ page_data page :: List.map page_data (resolved consumed)
    /\ length (requests w')
       = length (requests w) + length consumed
         + match o with Pending => 1 | _ => 0 end.
Proof.
  revert page w. induction fuel as [|fuel IH]; intros page w.
  - simpl. unfold bind at 1. simpl.
    destruct (defined _); intros [= <- <-]; exists []; simpl;
      repeat split; lia.
  - simpl. unfold bind at 1. simpl.
    destruct (defined _);
      [|intros [= <- <-]; exists []; simpl; repeat split; lia].
    unfold bind.
    destruct (_retrieveNextPage _ _ _ _) as [[next| | |] w2] eqn:Hr;
      apply retrieve_takes in Hr as (c0 & Hrep & Hseen & Hres & Hreq);
      simpl in Hrep, Hseen, Hreq.
    + intros Hc. apply IH in Hc as (c1 & Hrep1 & Hseen1 & Hreq1).
      exists (c0 ++ c1). rewrite resolved_app, Hres, length_app.
      rewrite Hseen1, Hseen, Hreq1, Hreq, <- !app_assoc. simpl.
      repeat split; try lia. now rewrite Hrep, Hrep1.
    + intros [= <- <-]. exists c0. rewrite Hres. simpl. repeat split; auto.
    + intros [= <- <-]. exists c0. rewrite Hres. simpl. repeat split; auto.
    + intros [= <- <-]. exists c0. rewrite Hres. simpl. repeat split; auto.
Qed.

Lemma traverse_takes (fuel self : nat) (reverse : bool)
      (cursor : Helper -> JsValue) (w w' : World) (o : Outcome unit) :
  bind (helper self)
       (fun h => bind (_retrieveNextPage self (cursor h) reverse)
                      (fun page => _consumePages fuel self reverse page))
       w = (o, w') ->
  traversed w (o, w').
Proof.
  unfold traversed, bind at 1, helper.
  destruct (helpers w !! self) as [h|];
    [|intros [= <- <-]; exists []; simpl; rewrite app_nil_r;
      repeat split; lia].
  unfold bind.
  destruct (_retrieveNextPage self (cursor h) reverse w)
    as [[page| | |] w1] eqn:Hr;
    apply retrieve_takes in Hr as (c0 & Hrep & Hseen & Hres & Hreq).
  - intros Hc. apply consume_takes in Hc as (c1 & Hrep1 & Hseen1 & Hreq1).
    exists (c0 ++ c1). simpl. rewrite resolved_app, Hres, length_app.
    rewrite Hseen1, Hseen, Hreq1, Hreq. simpl.
    repeat split; try lia. now rewrite Hrep, Hrep1, <- app_assoc.
  - intros [= <- <-]. exists c0. rewrite Hres, app_nil_r. simpl.
    repeat split; auto.
  - intros [= <- <-]. exists c0. rewrite Hres, app_nil_r. simpl.
    repeat split; auto.
  - intros [= <- <-]. exists c0. rewrite Hres, app_nil_r. simpl.
    repeat split; auto.
Qed.

(** X16. However a traversal ends, it has sent one request for each
    reply it took, and one more when it is left waiting; and it has
    called back exactly once for each page among the replies taken,
    with the data of the pages in the order they came. *)
Theorem each_calls_back_once_per_page (self : nat) (w : World) :
  traversed w (each self w) /\ traversed w (eachReverse self w).
Proof.
  split.
  - destruct (each self w) as [o w'] eqn:He.
    apply (traverse_takes (length (replies w)) self false after w w' o He).
  - destruct (eachReverse self w) as [o w'] eqn:He.
    apply (traverse_takes (length (replies w)) self true before w w' o He).
Qed.

(** ** The page helper: a traversal to the last page *)





(** ** The page helper: [previousPage] *)

Lemma previousPage_Done (self : nat) (w w' : World) (h : Helper)
      (fs : list FaunaFunction) (d : JsValue) :
  helpers w !! self = Some h ->
  arrays w !! _faunaFunctions h = Some fs ->
  previousPage self w = (Done d, w') ->
  exists page q,
    page_query h fs (before h) true = Ok q
    /\ replies w = Resolve page :: replies w'
    /\ requests w' = requests w ++ [q]
    /\ d = page_data page
    /\ helpers w' !! self = Some (adjusted h page)
    /\ arrays w' = arrays w.
Proof.
  intros Hh Hfs. unfold previousPage, bind at 1, helper. rewrite Hh.
  unfold bind at 1.
  destruct (_retrieveNextPage self (before h) true w) as [[page| | |] w1] eqn:Hr;
    try discriminate.
  apply retrieve_Done in Hr as (h0 & fs0 & q & Hh0 & Hfs0 & Hq & Hrep & ->).
  rewrite Hh in Hh0. injection Hh0 as <-.
  rewrite Hfs in Hfs0. injection Hfs0 as <-.
  unfold _adjustCursors, adjusted, assign_after, assign_before, bind, helper,
    put_helper, lift, ret.
  destruct h as [hset hparams hbefore hafter hfns hw]. simpl in *.
  destruct (defined (page_after page)) eqn:Ha,
           (defined (page_before page)) eqn:Hb;
    simpl; rewrite ?Hh; simpl; destruct hw; simpl;
    rewrite ?lookup_insert_eq; simpl; try discriminate;
    intros [= <- <-]; simpl; exists page, q;
    rewrite ?lookup_insert_eq, ?Hh, ?Ha, ?Hb; auto 10.
Qed.

(** X18. Paging backwards: after [n] calls of [previousPage] that all
    resolved, the helper holds the last [before] cursor one of the [n]
    replies reported, or the one it held if none did; each call sent
    one query, built for the reverse direction with the [before] cursor
    held when it was made, and a call made while the helper holds no
    [before] cursor asks with [before] set to [null]. *)
Theorem previousPages_cursors (n self : nat) (w w' : World) (h : Helper)
        (fs : list FaunaFunction) (datas : list JsValue) :
  helpers w !! self = Some h ->
  arrays w !! _faunaFunctions h = Some fs ->
  previousPages n self w = (Done datas, w') ->
  exists pages h' qs,
    length pages = n
    /\ replies w = List.map Resolve pages ++ replies w'
    /\ datas = List.map page_data pages
    /\ helpers w' !! self = Some h'
    /\ before h' = reported page_before pages (before h)
    /\ after h' = reported page_after pages (after h)
    /\ requests w' = requests w ++ qs
    /\ length qs = n
    /\ (forall i q, nth_error qs i = Some q ->
          page_query h fs (reported page_before (firstn i pages) (before h))
                     true = Ok q)
    /\ object.get (page_opts (params h) JUndefined true) "before" = JNull.
Proof.
  revert w h datas. induction n as [|n IH]; intros w h datas Hh Hfs.
  - simpl. unfold ret. intros [= <- <-].
    exists [], h, []. simpl. rewrite app_nil_r.
    repeat split; auto.
    + intros [|i] q; discriminate.
    + unfold page_opts. simpl. apply get_set_same.
  - simpl. unfold bind at 1.
    destruct (previousPage self w) as [[d| | |] w1] eqn:Hn; try discriminate.
    destruct (previousPage_Done _ _ _ _ _ _ Hh Hfs Hn)
      as (page & q & Hq & Hrep & Hreq & -> & Hh1 & Harr).
    unfold bind at 1.
    destruct (previousPages n self w1) as [[ds| | |] w2] eqn:Hrest;
      try discriminate.
    unfold ret. intros [= <- <-].
    assert (Hfs1 : arrays w1 !! _faunaFunctions (adjusted h page) = Some fs)
      by (rewrite Harr; exact Hfs).
    destruct (IH w1 (adjusted h page) ds Hh1 Hfs1 Hrest)
      as (pages & h' & qs & Hlen & Hreps & -> & Hh' & Hb & Ha & Hreqs & Hqs
          & Hnth & _).
    exists (page :: pages), h', (q :: qs). simpl List.map. simpl length.
    rewrite !reported_snoc.
    repeat split; auto.
    + rewrite Hrep, Hreps. reflexivity.
    + rewrite Hreqs, Hreq, <- app_assoc. reflexivity.
    + intros [|i] q'; simpl.
      * intros [= <-]. exact Hq.
      * intros Hi. specialize (Hnth i q' Hi).
        rewrite (page_query_cursors h (adjusted h page)) in Hnth
          by reflexivity.
        exact Hnth.
    + unfold page_opts. simpl. apply get_set_same.
Qed.

Lemma previousPages_cursors_witness :
  let p1 := mkPage (JArray [JNum 2]) (JStr "B") JUndefined in
  let p2 := mkPage (JArray [JNum 1]) JUndefined JUndefined in
  let w := snd (new (JStr "set") [] (script [Resolve p1; Resolve p2])) in
  exists pages h' qs,
    length pages = 2
    /\ replies w
       = List.map Resolve pages ++ replies (snd (previousPages 2 0 w))
    /\ helpers (snd (previousPages 2 0 w)) !! 0 = Some h'
    /\ before h' = reported page_before pages JUndefined
    /\ requests (snd (previousPages 2 0 w)) = requests w ++ qs
    /\ length qs = 2.
Proof.
  intros p1 p2 w.
  destruct (previousPages_cursors 2 0 w (snd (previousPages 2 0 w))
              (mkHelper (JStr "set") (Some []) JUndefined JUndefined 0 true)
              [] [JArray [JNum 2]; JArray [JNum 1]])
    as (pages & h' & qs & H1 & H2 & H3 & H4 & H5 & H6 & H7 & H8 & _).
  - reflexivity.
  - reflexivity.
  - vm_compute. reflexivity.
  - exists pages, h', qs. repeat split; assumption.
Defined.

(** ** The page helper: what the constructor keeps of its params *)

Lemma has_delete_same (o : Props) (k : string) :
  object.has (object.delete o k) k = false.
Proof.
  induction o as [|[k' v] t IH]; simpl; [reflexivity|].
  destruct (String.eqb k k') eqn:Hk; simpl; [exact IH|].
  now rewrite Hk.
Qed.

(** X19. The constructor takes one cursor out of its params: the
    params it keeps never hold [before], and hold [after] only when the
    params given held both; the helper starts from the [before] given,
    or else from the [after] given; every other param is kept as
    given. *)
Theorem constructor_takes_one_cursor (set : JsValue) (ps : Props)
        (w : World) :
  object.wf ps ->
  exists h p,
    fst (new set ps w) = Done (fresh (dom (helpers w)))
    /\ helpers (snd (new set ps w)) !! fresh (dom (helpers w)) = Some h
    /\ params h = Some p
    /\ object.has p "before" = false
    /\ object.has p "after" = object.has ps "before" && object.has ps "after"
    /\ before h = object.get ps "before"
    /\ after h = (if object.has ps "before" then JUndefined
                  else object.get ps "after")
    /\ forall k, k <> "before" -> k <> "after" ->
                 object.get p k = object.get ps k.
Proof.
  intros Hwf. unfold new, bind, new_array, new_object. simpl.
  rewrite lookup_insert_eq, (assign_app [] ps) by exact Hwf. simpl.
  destruct (object.has ps "before") eqn:Hb;
    [|destruct (object.has ps "after") eqn:Ha];
    eexists; eexists; (split; [reflexivity|]); (split; [reflexivity|]);
    (split; [reflexivity|]); simpl.
  - split; [apply has_delete_same|].
    split; [apply has_delete_other; discriminate|].
    split; [reflexivity|]. split; [reflexivity|].
    intros k Hk _. now apply get_delete_other.
  - split; [rewrite has_delete_other by discriminate; exact Hb|].
    split; [apply has_delete_same|].
    split; [symmetry; now apply has_get_absent|]. split; [reflexivity|].
    intros k _ Hk. now apply get_delete_other.
  - split; [exact Hb|]. split; [exact Ha|].
    split; [symmetry; now apply has_get_absent|].
    split; [symmetry; now apply has_get_absent|]. reflexivity.
Qed.

Lemma constructor_takes_one_cursor_witness :
  exists h p,
    fst (new (JStr "set") [("size", JNum 2); ("after", JStr "A")] empty)
    = Done 0
    /\ helpers (snd (new (JStr "set")
                         [("size", JNum 2); ("after", JStr "A")] empty)) !! 0
       = Some h
    /\ params h = Some p
    /\ object.has p "after" = false
    /\ after h = JStr "A"
    /\ object.get p "size" = JNum 2.
Proof.
  destruct (constructor_takes_one_cursor
              (JStr "set") [("size", JNum 2); ("after", JStr "A")] empty)
    as (h & p & H1 & H2 & H3 & _ & H5 & _ & H7 & H8).
  - unfold object.wf. simpl. apply NoDup_cons. split.
    + rewrite elem_of_cons, elem_of_nil. intros H; intuition discriminate.
    + apply NoDup_singleton.
  - exists h, p. repeat split; auto.
Defined.

(** ** The options of [Paginate] *)



(** ** Printing a [Ref] *)

(** X21. A [Ref] prints, whatever the engine, when every reference in
    it that has a [database] has a [class]; one that has a [database]
    and no [class] raises a [TypeError] instead.  A reference into the
    native [classes] prints as the call of [Class] on its [id]. *)
Theorem Ref_toString_needs_class (engine : string -> string) :
  (forall r prevDb, classed r ->
     exists s, Ref.toString_from engine r prevDb = Ok s)
  /\ (forall i d,
        raises "TypeError"
               (Ref.toString engine (values.mkRef i None (Some d))))
  /\ (forall i c, values.id c = "classes" ->
        Ref.toString engine (values.mkRef i (Some c) None)
        = Ok ("Class(" +:+ str.quote i +:+ ")")).
Proof.
  split; [|split].
  - intros r. remember (Expr.ref_height r) as n eqn:Hn.
    revert r Hn.
    induction n as [n IHn] using lt_wf_ind.
    intros [i c d] Hn.
    assert (IH : forall y, Expr.ref_height y
                           < Expr.ref_height (values.mkRef i c d) ->
              forall prevDb, classed y ->
                exists s, Ref.toString_from engine y prevDb = Ok s).
    { intros y Hy. apply (IHn (Expr.ref_height y)); [lia | reflexivity]. }
    clear IHn Hn.
    assert (Hsub : forall x, (c = Some x \/ d = Some x) ->
              Expr.ref_height x < Expr.ref_height (values.mkRef i c d)).
    { intros x [-> | ->]; simpl; lia. }
    intros prevDb. simpl.
    destruct c as [c1|], d as [d1|]; simpl.
    4:{ eauto. }
    3:{ intros []. }
    + intros [Hc Hd].
      destruct (IH d1 (Hsub _ (or_intror eq_refl)) "" Hd) as [sd ->].
      destruct (Ref.constructors engine (values.id c1)); [eauto|].
      destruct (IH c1 (Hsub _ (or_introl eq_refl)) sd Hc) as [sc ->]. eauto.
    + intros [Hc _].
      destruct (Ref.constructors engine (values.id c1)); [eauto|].
      destruct (IH c1 (Hsub _ (or_introl eq_refl)) "" Hc) as [sc ->]. eauto.
  - intros i d. reflexivity.
  - intros i c Hc. unfold Ref.toString. simpl. rewrite Hc. reflexivity.
Qed.

(** ** Variadic calls on data *)

Lemma plain_items_printed (items : list JsValue) :
  Forall plain items ->
  exists ws, query.wrap_each items = Ok ws
             /\ render_items ws = Ok (List.map show items).
Proof.
  induction 1 as [|v t Hv _ (ws & Hws & Hss)]; [now exists []|].
  destruct (plain_printed v Hv) as (w & Hw & Hs).
  exists (w :: ws). simpl. now rewrite Hw, Hws, Hs, Hss.
Qed.

(** X22. The call of one of the constructors [Union], [Intersection],
    [Difference], of the arithmetic and comparison operators, [And] or
    [Or] on two or more operands that are data prints as the name of the
    function and, between parentheses, the operands as they are
    written, separated by commas, without the brackets of the array that
    holds them. *)
Theorem variadic_call_prints_operands (tag : string) (l : list JsValue) :
  In tag variadic_constructors ->
  2 <= length l ->
  Forall plain l ->
  exists name,
    Expr.function_name tag = Ok name
    /\ (do u <- query.variadic tag l; Expr.toString u None)
       = Ok (name +:+ "(" +:+ str.join ", " (List.map show l) +:+ ")").
Proof.
  intros Htag Hlen Hplain.
  assert (Hin : In tag variadic_tags).
  { unfold variadic_constructors in Htag. unfold variadic_tags.
    simpl in *. intuition. }
  destruct (variadic_tags_names tag Hin) as (name & Hname & Hinc & Hobj).
  exists name. split; [exact Hname|].
  destruct (plain_items_printed l Hplain) as (ws & Hws & Hss).
  assert (Hv : query.varargs l = JArray l).
  { destruct l as [|a [|b l]]; simpl in Hlen; try lia; reflexivity. }
  assert (Ha : arity.min 1 (length l) = Ok tt).
  { destruct l as [|a [|b l]]; simpl in Hlen; try lia; reflexivity. }
  unfold query.variadic. rewrite Ha, Hv, wrap_array, Hws.
  rewrite (toString_call tag name _ Hobj Hname), toString_array, Hss, Hinc.
  reflexivity.
Qed.

Lemma variadic_call_prints_operands_witness :
  (do u <- query.variadic "add" [JNum 1; JNum 2; JArray [JStr "a"]];
   Expr.toString u None)
  = Ok ("Add(1, 2, [" +:+ str.quote "a" +:+ "])").
Proof.
  destruct (variadic_call_prints_operands
              "add" [JNum 1; JNum 2; JArray [JStr "a"]])
    as (name & Hname & H).
  - simpl. auto.
  - simpl. lia.
  - repeat constructor.
  - injection Hname as <-. exact H.
Defined.
